(** * SQLAlchemy-serializer: the schema engine of [to_dict/serializer.py]

    A shallow embedding of the [Serializer] class: the schema store
    ([_keys]), the visibility test ([_is_valid]), the schema loader
    ([_set_schema]), the sub-schema getter ([_get_sub_schema]), the schema
    merger ([merge_schemas]) and the recursive dispatch ([__call__]) with
    its helpers.  Python's [dict] used as the store is a [gmap], the [set]
    built by [merge_schemas] is a [gset], exceptions are a sum type and the
    store an instance mutates is threaded explicitly. *)

From Stdlib Require Import ZArith Ascii String List.
From stdpp Require Import base option list strings gmap sets.

#[local] Set Warnings "-clear-no-such-hyp,-register-all".

(** ** Strings *)

Module Str.

(** [s.startswith(p)] *)
Fixpoint startswith (p s : string) : bool :=
  match p, s with
  | EmptyString, _ => true
  | String _ _, EmptyString => false
  | String a p', String b s' => Ascii.eqb a b && startswith p' s'
  end.

(** [s[n:]] *)
Fixpoint drop (n : nat) (s : string) : string :=
  match n, s with
  | O, _ => s
  | S _, EmptyString => EmptyString
  | S n', String _ s' => drop n' s'
  end.

(** [s.split(sep)] for a one-character separator: never the empty list. *)
Fixpoint split (sep : ascii) (s : string) : list string :=
  match s with
  | EmptyString => [EmptyString]
  | String c s' =>
      if Ascii.eqb c sep then EmptyString :: split sep s'
      else match split sep s' with
           | [] => [String c EmptyString]
           | w :: ws => String c w :: ws
           end
  end.

(** [sep.join(l)] *)
Definition join (sep : string) (l : list string) : string :=
  String.concat sep l.

End Str.

(** ** Class constants *)

Definition _WILDCARD : string := "*".
Definition _DELIM : string := ".".
Definition _DELIM_char : ascii := "."%char.
Definition _NEGATION : string := "-".

(** [self._keys]: head -> list of tails, a tail being what is left of a
    path after its head ([k.split('.')[1:]]). *)
Abbreviation store := (gmap string (list (list string))).

(** ** Keyword arguments of the constructor

    [None] stands for a keyword that was not passed (or passed as [None]
    for the two formats). *)
Record kwargs := Kwargs {
  kw_is_greedy : option bool;
  kw_date_format : option string;
  kw_datetime_format : option string;
  kw_to_user_tz : option bool
}.

Definition default_kwargs : kwargs := Kwargs None None None None.

(** [bool(self.kwargs.get('is_greedy', True))] *)
Definition is_greedy (kw : kwargs) : bool := default true (kw_is_greedy kw).

(** [bool(self.kwargs.get('to_user_tz', False))] *)
Definition to_user_tz (kw : kwargs) : bool := default false (kw_to_user_tz kw).

(** [x or d] on an optional string: [None] and [''] are both falsy. *)
Definition or_default (x : option string) (d : string) : string :=
  match x with
  | Some (String c s) => String c s
  | _ => d
  end.

Definition datetime_format (kw : kwargs) : string :=
  or_default (kw_datetime_format kw) "%Y-%m-%d %H:%M".

Definition date_format (kw : kwargs) : string :=
  or_default (kw_date_format kw) "%Y-%m-%d".

(** ** Keys and their polarity *)

Definition _negate (key : string) : string := _NEGATION +:+ key.

Definition _is_negation (key : string) : bool := Str.startswith _NEGATION key.

Definition _admit (key : string) : string :=
  if _is_negation key then Str.drop (String.length _NEGATION) key else key.

(** ** Visibility: [_is_valid] *)

Definition _is_valid (kw : kwargs) (keys : store) (key : string) : bool :=
  let excluded :=
    match keys !! _negate key with
    | Some tails => match tails with [] => true | _ => false end
    | None => false
    end in
  if excluded then false
  else if bool_decide (is_Some (keys !! _WILDCARD)) then true
  else bool_decide (is_Some (keys !! key))
       || (is_greedy kw && negb (Str.startswith "_" key)).

(** The reading of section 4.2 of the specification, check by check. *)
Definition IsIncluded_spec (kw : kwargs) (keys : store) (key : string) : bool :=
  if bool_decide (keys !! _negate key = Some []) then false
  else if bool_decide (_WILDCARD ∈ dom keys) then true
  else if bool_decide (key ∈ dom keys) then true
  else is_greedy kw && negb (Str.startswith "_" key).

(** ** Loading a schema: [_set_schema] *)

(** [head, *tail = k.split('.')] *)
Definition head_tail (k : string) : string * list string :=
  match Str.split _DELIM_char k with
  | [] => (EmptyString, [])
  | h :: t => (h, t)
  end.

Definition set_schema_step (keys : store) (k : string) : store :=
  let '(head, tl) := head_tail k in
  match keys !! head with
  | Some tails =>
      match tl with
      | [] => keys
      | _ => <[head := tails ++ [tl]]> keys
      end
  | None => <[head := match tl with [] => [] | _ => [tl] end]> keys
  end.

Definition _set_schema (keys : store) (ks : list string) : store :=
  foldl set_schema_step keys ks.

(** ** Exceptions *)

Inductive exn :=
| IsNotSerializable (msg : string)
| Exception (msg : string).

(** ** Sub-schemas: [_get_sub_schema]

    The second loop assigns [k[0] = self._negate(k[0])] on the tail object
    that the store holds, so the tails under the negated key are rewritten
    in the store itself; the function returns the store it leaves behind.
    When the loop raises, the tails before the empty one are already
    rewritten. *)

(** [k[0] = self._negate(k[0])] on a non-empty tail. *)
Definition shift_negation (k : list string) : list string :=
  match k with
  | [] => []
  | s :: rest => _negate s :: rest
  end.

(** Second loop: the tails as the loop leaves them, and whether it
    raised. *)
Fixpoint negated_loop (tails : list (list string))
  : list (list string) * bool :=
  match tails with
  | [] => ([], false)
  | [] :: rest => ([] :: rest, true)
  | k :: rest =>
      let '(rest', raised) := negated_loop rest in
      (shift_negation k :: rest', raised)
  end.

Definition nonempty_tail (k : list string) : bool :=
  match k with [] => false | _ => true end.

Definition _get_sub_schema (keys : store) (key : string)
  : store * (exn + list string) :=
  let plain :=
    filter (λ k, nonempty_tail k = true) (default [] (keys !! key)) in
  match keys !! _negate key with
  | None => (keys, inr (Str.join _DELIM <$> plain))
  | Some tails =>
      let '(tails', raised) := negated_loop tails in
      let keys' := <[_negate key := tails']> keys in
      if raised then
        (keys', inl (Exception "Excluded KEY:[] has no access to subkeys"))
      else (keys', inr (Str.join _DELIM <$> (plain ++ tails')))
  end.

(** ** Merging schemas: [merge_schemas] *)

(** The body of [for k in keys]. *)
Definition merge_add (res : gset string) (k : string) : gset string :=
  let res :=
    if _is_negation k then
      if bool_decide (_admit k ∈ res) then res ∖ {[_admit k]} else res
    else
      if bool_decide (_negate k ∈ res) then res ∖ {[_negate k]} else res in
  res ∪ {[k]}.

(** [lists.pop()]: the last element and the list without it. *)
Definition list_pop {A} (l : list A) : option (A * list A) :=
  match reverse l with
  | [] => None
  | x :: r => Some (x, reverse r)
  end.

(** [while lists: keys = lists.pop(); for k in keys: ...]; the counter
    bounds the number of turns and is started at [len(lists)]. *)
Fixpoint merge_while (turns : nat) (lists : list (list string))
    (res : gset string) : gset string :=
  match turns with
  | O => res
  | S turns' =>
      match list_pop lists with
      | None => res
      | Some (keys, lists') => merge_while turns' lists' (foldl merge_add res keys)
      end
  end.

Definition merge_schemas (args : list (list string)) : gset string :=
  let lists := reverse args in
  merge_while (length lists) lists ∅.

(** ** Values handed to the serializer *)

(** [simple_types]: int, str, float, bytes, bool, None.  A float is kept
    as its bit pattern; the serializer only passes it through. *)
Inductive simple :=
| PInt (n : Z)
| PStr (s : string)
| PFloat (bits : Z)
| PBytes (b : list Byte.byte)
| PBool (b : bool)
| PNone.

Record date := Date { year : Z; month : Z; day : Z }.

Record datetime := Datetime {
  dt_date : date;
  hour : Z;
  minute : Z;
  second : Z;
  utcoffset : option Z
}.

(** The shapes [__call__] tells apart.  [VList] is any iterable that is
    neither a string, a byte string nor a dict (list, tuple, set,
    generator), given as the sequence its iteration yields; [VModel] is an
    instance of [SerializerMixin] with its [__schema__] and its mapped
    attributes in the order of [get_model_keys()], each with the value
    [getattr] returns; [VCallable] is a callable with the value its call
    returns; [VObject] is any other object. *)
Inductive value :=
| VSimple (p : simple)
| VDatetime (d : datetime)
| VDate (d : date)
| VList (items : list value)
| VDict (items : list (string * value))
| VModel (schema : list string) (attrs : list (string * value))
| VCallable (ret : value)
| VObject.

(** What the serializer returns: simple values, lists and dicts. *)
Inductive json :=
| JSimple (p : simple)
| JList (items : list json)
| JDict (items : list (string * json)).

(** [res[k] = v] on a dict kept in insertion order. *)
Fixpoint dict_set (res : list (string * json)) (k : string) (v : json)
  : list (string * json) :=
  match res with
  | [] => [(k, v)]
  | (k', v') :: rest =>
      if String.eqb k' k then (k', v) :: rest else (k', v') :: dict_set rest k v
  end.


(** ** What the module imports

    [strftime] of the standard library, the three helpers of
    [lib.timezones] (called with [rebase=False]) and the order in which a
    [set] of strings is iterated are not part of [serializer.py]; the
    serializer is parameterised by them. *)
Record runtime := Runtime {
  datetime_strftime : datetime → string → string;
  date_strftime : date → string → string;
  to_local_time : datetime → datetime;
  format_datetime : datetime → string → string;
  format_date : date → string → string;
  set_iter : gset string → list string
}.

(** Iterating a set yields each of its elements once. *)
Definition set_iter_ok (rt : runtime) : Prop :=
  ∀ X : gset string, set_iter rt X ≡ₚ elements X.

(** A runtime to evaluate examples with. *)
Definition sample_runtime : runtime :=
  Runtime (λ _ fmt, fmt) (λ _ fmt, fmt) (λ d, d) (λ _ fmt, fmt) (λ _ fmt, fmt)
          elements.

(** ** [isinstance] tests of [__call__], each with the view it gives *)

(** [callable(value)] then [value = value()] *)
Definition resolve (v : value) : value :=
  match v with
  | VCallable ret => ret
  | _ => v
  end.

Definition as_simple (v : value) : option simple :=
  match v with VSimple p => Some p | _ => None end.

Definition as_datetime (v : value) : option datetime :=
  match v with VDatetime d => Some d | _ => None end.

(** [datetime] is a subclass of [date]. *)
Definition as_date (v : value) : option date :=
  match v with
  | VDate d => Some d
  | VDatetime d => Some (dt_date d)
  | _ => None
  end.

Fixpoint chars (s : string) : list string :=
  match s with
  | EmptyString => []
  | String c s' => String c EmptyString :: chars s'
  end.

(** [isinstance(value, Iterable)], with what [for v in value] yields:
    strings yield their characters, byte strings their bytes as ints,
    dicts their keys. *)
Definition as_iterable (v : value) : option (list value) :=
  match v with
  | VSimple (PStr s) => Some (VSimple ∘ PStr <$> chars s)
  | VSimple (PBytes b) =>
      Some ((λ x, VSimple (PInt (Z.of_N (Byte.to_N x)))) <$> b)
  | VList items => Some items
  | VDict items => Some ((λ kv, VSimple (PStr kv.1)) <$> items)
  | _ => None
  end.

Definition as_mixin (v : value)
  : option (list string * list (string * value)) :=
  match v with VModel schema attrs => Some (schema, attrs) | _ => None end.

Definition as_dict (v : value) : option (list (string * value)) :=
  match v with VDict items => Some items | _ => None end.

(** ** The serializer

    A call returns the store the instance is left with and either the
    value returned or the exception raised. *)
Definition result (A : Type) : Type := store * (exn + A).

Definition serialize_datetime (rt : runtime) (kw : kwargs) (d : datetime)
  : string :=
  if to_user_tz kw then
    format_datetime rt (to_local_time rt d) (datetime_format kw)
  else datetime_strftime rt d (datetime_format kw).

Definition serialize_date (rt : runtime) (kw : kwargs) (d : date) : string :=
  if to_user_tz kw then format_date rt d (date_format kw)
  else date_strftime rt d (date_format kw).

Section methods.

Context (rt : runtime) (kw : kwargs).

(** [__call__] one level down: [self(...)] when it is given the store of
    this instance, a call of a new [Serializer] built from [self.kwargs]
    when given the empty store.  [None] is a call that ran out of the
    depth bound. *)
Context (call : store → value → list string → option (result json)).

(** [serialize_iter]: [self(v)] is called without a schema; an element
    that raises [IsNotSerializable] is skipped, any other exception
    leaves the loop. *)
Fixpoint serialize_iter_loop (items : list value) (keys : store)
    (res : list json) : option (result json) :=
  match items with
  | [] => Some (keys, inr (JList res))
  | v :: rest =>
      match call keys v [] with
      | None => None
      | Some (keys', inr j) => serialize_iter_loop rest keys' (res ++ [j])
      | Some (keys', inl (IsNotSerializable _)) =>
          serialize_iter_loop rest keys' res
      | Some (keys', inl e) => Some (keys', inl e)
      end
  end.

Definition serialize_iter (keys : store) (items : list value)
  : option (result json) :=
  serialize_iter_loop items keys [].

(** [_fork]: the store of the new instance is dropped with it. *)
Definition _fork (keys : store) (key : string) (v : value)
  : option (result json) :=
  match as_simple v with
  | Some p => Some (keys, inr (JSimple p))
  | None =>
      match _get_sub_schema keys key with
      | (keys', inl e) => Some (keys', inl e)
      | (keys', inr sub) =>
          match call ∅ v sub with
          | None => None
          | Some (_, r) => Some (keys', r)
          end
      end
  end.

(** The loop of [serialize_dict] and of [serialize_model]. *)
Fixpoint serialize_keyed_loop (items : list (string * value)) (keys : store)
    (res : list (string * json)) : option (result json) :=
  match items with
  | [] => Some (keys, inr (JDict res))
  | (k, v) :: rest =>
      if _is_valid kw keys k then
        match _fork keys k v with
        | None => None
        | Some (keys', inr j) =>
            serialize_keyed_loop rest keys' (dict_set res k j)
        | Some (keys', inl e) => Some (keys', inl e)
        end
      else serialize_keyed_loop rest keys res
  end.

(** [for k, v in value.items()] *)
Definition serialize_dict (keys : store) (items : list (string * value))
  : option (result json) :=
  serialize_keyed_loop items keys [].

(** [for k in value.get_model_keys(): ... getattr(value, k)] *)
Definition serialize_model (keys : store) (attrs : list (string * value))
  : option (result json) :=
  serialize_keyed_loop attrs keys [].

(** The body of [__call__]. *)
Definition call_body (keys : store) (value : value) (schema : list string)
  : option (result json) :=
  let value := resolve value in
  match as_simple value with
  | Some p => Some (keys, inr (JSimple p))
  | None =>
  match as_datetime value with
  | Some d => Some (keys, inr (JSimple (PStr (serialize_datetime rt kw d))))
  | None =>
  match as_date value with
  | Some d => Some (keys, inr (JSimple (PStr (serialize_date rt kw d))))
  | None =>
  match as_iterable value with
  | Some items => serialize_iter keys items
  | None =>
  match as_mixin value with
  | Some (schema0, attrs) =>
      let keys' :=
        _set_schema keys (set_iter rt (merge_schemas [schema0; schema])) in
      serialize_model keys' attrs
  | None =>
  match as_dict value with
  | Some items => serialize_dict (_set_schema keys schema) items
  | None => Some (keys, inl (IsNotSerializable "Malformed value"))
  end end end end end end.

End methods.

(** [__call__] with a bound on the nesting it may descend. *)
Fixpoint call (fuel : nat) (rt : runtime) (kw : kwargs) (keys : store)
    (v : value) (schema : list string) : option (result json) :=
  match fuel with
  | O => None
  | S fuel' => call_body rt kw (call fuel' rt kw) keys v schema
  end.

(** Nesting of a value: the levels of [__call__] below the first. *)
Fixpoint depth (v : value) : nat :=
  match v with
  | VList items => S (foldr (λ x n, depth x `max` n) 0 items)
  | VDict items => S (foldr (λ kv n, depth kv.2 `max` n) 0 items)
  | VModel _ attrs => S (foldr (λ kv n, depth kv.2 `max` n) 0 attrs)
  | VCallable ret => depth ret
  | _ => 0
  end.

(** A fresh instance called once, as [to_dict] does, with a bound that
    covers the value. *)
Definition Serializer (rt : runtime) (kw : kwargs) (v : value)
    (schema : list string) : option (result json) :=
  call (S (depth v)) rt kw ∅ v schema.

(** A value [__call__] has no branch for. *)
Definition unrecognised (v : value) : bool :=
  match v with
  | VCallable _ | VObject => true
  | _ => false
  end.

(** ** Vocabulary of the statements *)

(** The tails [_set_schema] files under the head [h] for the paths of
    [l], in the order of [l]. *)
Definition tails_for (h : string) (l : list string) : list (list string) :=
  omap (λ k, if bool_decide ((head_tail k).1 = h)
             then match (head_tail k).2 with [] => None | tl => Some tl end
             else None) l.

(** Some path of [l] has the head [h]. *)
Definition mentions (h : string) (l : list string) : Prop :=
  Exists (λ k, (head_tail k).1 = h) l.


(** [rec'] answers as [rec] wherever [rec] answers. *)
Definition extends
    (rec rec' : store → value → list string → option (result json)) : Prop :=
  ∀ keys v sch r, rec keys v sch = Some r → rec' keys v sch = Some r.


(** The key that adding [k] to a merged schema cancels. *)
Definition opposite (k : string) : string :=
  if _is_negation k then _admit k else _negate k.

(** A pass over [k] touches [s] when it adds it or cancels it. *)
Definition touches (s k : string) : Prop := s = k ∨ s = opposite k.

(** No plain key sits in the set together with its negated form. *)
Definition polarity_exclusive (res : gset string) : Prop :=
  ∀ s, _is_negation s = false → ¬ (s ∈ res ∧ _negate s ∈ res).

(** Every tail the store holds has at least one segment. *)
Definition tails_nonempty (keys : store) : Prop :=
  ∀ h ts, keys !! h = Some ts → Forall (λ t, t ≠ []) ts.

(** ** Vocabulary of the further properties *)

(** [c in s] for a character. *)
Fixpoint contains_char (c : ascii) (s : string) : bool :=
  match s with
  | EmptyString => false
  | String c' s' => Ascii.eqb c' c || contains_char c s'
  end.

(** A name usable as one segment of a path: it holds no delimiter. *)
Definition segment (h : string) : Prop := contains_char _DELIM_char h = false.

(** The path ['%s.%s' % (h, p)]. *)
Definition dotted (h p : string) : string := h +:+ _DELIM +:+ p.

(** Some path of [ks] is [h] itself or [h] followed by a dot and more. *)
Definition headed (h : string) (ks : list string) : Prop :=
  h ∈ ks ∨ ∃ p, dotted h p ∈ ks.

(** A call that, started on a store without empty tails, leaves such a
    store and does not raise the configuration error. *)
Definition keeps_tails
    (rec : store → value → list string → option (result json)) : Prop :=
  ∀ keys v sch keys' r,
    tails_nonempty keys → rec keys v sch = Some (keys', r) →
    tails_nonempty keys' ∧ ∀ msg, r ≠ inl (Exception msg).

(** Two runtimes with the same [strftime] and the same iteration order
    of sets; the helpers of [lib.timezones] may differ. *)
Definition same_strftime (rt rt' : runtime) : Prop :=
  (∀ d f, datetime_strftime rt d f = datetime_strftime rt' d f) ∧
  (∀ d f, date_strftime rt d f = date_strftime rt' d f) ∧
  (∀ X, set_iter rt X = set_iter rt' X).

(** A new instance called once: the call [_fork] makes. *)
Definition fresh (rt : runtime) (kw : kwargs)
  : store → value → list string → option (result json) :=
  λ _ v sch, Serializer rt kw v sch.

(** The entries of a keyed structure when every field is decided and
    forked against one and the same store [keys0]: the first fork that
    raises ends the list with its exception. *)
Fixpoint fields_spec (kw : kwargs)
    (rec : store → value → list string → option (result json))
    (keys0 : store) (items : list (string * value))
  : option (exn + list (string * json)) :=
  match items with
  | [] => Some (inr [])
  | (k, v) :: rest =>
      if _is_valid kw keys0 k then
        match _fork rec keys0 k v with
        | None => None
        | Some (_, inl e) => Some (inl e)
        | Some (_, inr j) =>
            match fields_spec kw rec keys0 rest with
            | Some (inr d) => Some (inr ((k, j) :: d))
            | other => other
            end
        end
      else fields_spec kw rec keys0 rest
  end.

(** [SerializerMixin.to_dict]: a serializer built from the four keyword
    arguments and called once on the model. *)
Definition to_dict (rt : runtime) (self_schema : list string)
    (attrs : list (string * value)) (schema : list string) (is_greedy : bool)
    (date_format datetime_format : option string) (to_user_tz : bool)
  : option (result json) :=
  Serializer rt (Kwargs (Some is_greedy) date_format datetime_format
                        (Some to_user_tz))
    (VModel self_schema attrs) schema.

(** Where the current store and [keys0] agree for the fields still to
    come. *)
Definition agree_for (items : list (string * value)) (keys keys0 : store)
  : Prop :=
  keys !! _WILDCARD = keys0 !! _WILDCARD ∧
  ∀ kv, kv ∈ items →
    keys !! kv.1 = keys0 !! kv.1 ∧ keys !! _negate kv.1 = keys0 !! _negate kv.1.

(** A name without the leading underscore of private attributes. *)
Definition public (k : string) : bool := negb (Str.startswith "_" k).

(** A model whose attributes all hold simple values, and what a greedy
    serializer with no schema is to return for it. *)
Definition flat_attrs (rows : list (string * simple)) : list (string * value) :=
  (λ kp, (kp.1, VSimple kp.2)) <$> rows.

Definition flat_public (rows : list (string * simple)) : list (string * json) :=
  (λ kp, (kp.1, JSimple kp.2)) <$> filter (λ kp, public kp.1 = true) rows.

(** A value every attribute of which, at any depth below models, is
    something [__call__] has a branch for.  What a list holds does not
    matter: [serialize_iter] skips what cannot be serialized. *)
Fixpoint well_formed (v : value) : bool :=
  match v with
  | VSimple _ | VDatetime _ | VDate _ | VList _ | VDict _ => true
  | VModel _ attrs => forallb (λ kv, well_formed kv.2) attrs
  | VCallable ret =>
      match ret with
      | VCallable _ => false
      | _ => well_formed ret
      end
  | VObject => false
  end.

(** A value the serializing of which meets a model on the instance
    itself: a model, a callable returning one, or a list holding one at
    any depth. *)
Fixpoint has_model (v : value) : bool :=
  match v with
  | VModel _ _ => true
  | VList items => existsb has_model items
  | VCallable ret =>
      match ret with
      | VCallable _ => false
      | _ => has_model ret
      end
  | _ => false
  end.

(** Two runtimes with the same helpers of [lib.timezones] and the same
    iteration order of sets; their [strftime] may differ. *)
Definition same_timezones (rt rt' : runtime) : Prop :=
  (∀ d, to_local_time rt d = to_local_time rt' d) ∧
  (∀ d f, format_datetime rt d f = format_datetime rt' d f) ∧
  (∀ d f, format_date rt d f = format_date rt' d f) ∧
  (∀ X, set_iter rt X = set_iter rt' X).

(** Two sets of keyword arguments that the four properties of the class
    read alike. *)
Definition same_settings (kw kw' : kwargs) : Prop :=
  is_greedy kw = is_greedy kw' ∧
  to_user_tz kw = to_user_tz kw' ∧
  datetime_format kw = datetime_format kw' ∧
  date_format kw = date_format kw'.

(** * Properties of the schema engine *)

(** ** Key polarity *)

Section polarity.

Lemma negate_cons k : _negate k = String "-" k.
Proof. reflexivity. Qed.

Lemma is_negation_negate k : _is_negation (_negate k) = true.
Proof. reflexivity. Qed.

Lemma admit_negate k : _admit (_negate k) = k.
Proof. reflexivity. Qed.

Lemma negate_inj k1 k2 : _negate k1 = _negate k2 → k1 = k2.
Proof. rewrite !negate_cons. intros H. by injection H. Qed.

Lemma negate_admit k : _is_negation k = true → _negate (_admit k) = k.
Proof.
  unfold _admit. intros H. rewrite H.
  destruct k as [|c k]; [discriminate|].
  change (Ascii.eqb "-" c && true = true) in H.
  apply andb_prop in H as [H _]. apply Ascii.eqb_eq in H as <-.
  reflexivity.
Qed.

Lemma negate_neq k : _negate k ≠ k.
Proof.
  rewrite negate_cons. intros H.
  apply (f_equal String.length) in H. simpl in H. lia.
Qed.

Lemma admit_neq k : _is_negation k = true → _admit k ≠ k.
Proof.
  intros H E. apply negate_admit in H. rewrite E in H.
  by apply negate_neq in H.
Qed.

End polarity.

Lemma opposite_neq k : opposite k ≠ k.
Proof.
  unfold opposite. destruct (_is_negation k) eqn:E.
  - by apply admit_neq.
  - apply negate_neq.
Qed.

Lemma merge_add_opposite res k :
  merge_add res k = (res ∖ {[opposite k]}) ∪ {[k]}.
Proof.
  unfold merge_add, opposite.
  destruct (_is_negation k); case_bool_decide; set_solver.
Qed.

Lemma elem_of_merge_add res k s :
  s ∈ merge_add res k ↔ s = k ∨ (s ∈ res ∧ s ≠ opposite k).
Proof. rewrite merge_add_opposite. set_solver. Qed.

(** ** The loop of [merge_schemas] is a left-to-right fold *)

Lemma list_pop_snoc {A} (l : list A) (x : A) :
  list_pop (l ++ [x]) = Some (x, l).
Proof.
  unfold list_pop. rewrite reverse_app. simpl. by rewrite reverse_involutive.
Qed.

Lemma merge_while_fold args : ∀ res n,
  length args ≤ n →
  merge_while n (reverse args) res = foldl merge_add res (concat args).
Proof.
  induction args as [|keys args IH]; intros res n Hn.
  - destruct n; reflexivity.
  - destruct n as [|n]; simpl in Hn; [lia|].
    rewrite reverse_cons. simpl. rewrite list_pop_snoc.
    rewrite foldl_app. apply IH. lia.
Qed.

Lemma merge_schemas_fold args :
  merge_schemas args = foldl merge_add ∅ (concat args).
Proof.
  unfold merge_schemas. rewrite length_reverse. by apply merge_while_fold.
Qed.

(** ** What a pass over a list leaves in the set

    The pass decides the membership of every touched string on its own;
    the untouched ones keep the membership they had. *)

Lemma fold_untouched (L : list string) : ∀ (S : gset string) s,
  Forall (λ k, ¬ touches s k) L →
  s ∈ foldl merge_add S L ↔ s ∈ S.
Proof.
  induction L as [|k L IH]; intros S s HL; [done|].
  apply Forall_cons in HL as [Hk HL]. simpl.
  rewrite IH by done. rewrite elem_of_merge_add.
  unfold touches in Hk. tauto.
Qed.

Lemma fold_touched (L : list string) : ∀ (S T : gset string) s,
  Exists (touches s) L →
  s ∈ foldl merge_add S L ↔ s ∈ foldl merge_add T L.
Proof.
  induction L as [|k L IH]; intros S T s HL; [by apply Exists_nil in HL|].
  simpl. destruct (decide (Exists (touches s) L)) as [HE|HE].
  - by apply IH.
  - apply not_Exists_Forall in HE; [|intros ?; apply _].
    rewrite !fold_untouched by done.
    apply Exists_cons in HL as [Hk|HL].
    + rewrite !elem_of_merge_add. pose proof (opposite_neq k).
      destruct Hk as [->| ->]; [tauto|]. split; intros [?|[_ ?]]; done.
    + exfalso. rewrite Forall_forall in HE. apply Exists_exists in HL.
      destruct HL as (x & Hx & Hs). by apply (HE x).
Qed.

Lemma merge_pass_twice (L : list string) (S : gset string) :
  foldl merge_add (foldl merge_add S L) L = foldl merge_add S L.
Proof.
  apply set_eq. intros s.
  destruct (decide (Exists (touches s) L)) as [HE|HE].
  - by apply fold_touched.
  - apply not_Exists_Forall in HE; [|intros ?; apply _].
    by apply fold_untouched.
Qed.

(** ** Plain keys never meet their negated form *)

Lemma polarity_exclusive_add res k :
  polarity_exclusive res → polarity_exclusive (merge_add res k).
Proof.
  intros Hres s Hs [H1 H2].
  apply elem_of_merge_add in H1, H2.
  unfold opposite in *. destruct (_is_negation k) eqn:Ek.
  - destruct H1 as [->|[H1 N1]]; [congruence|].
    destruct H2 as [H2|[H2 _]]; [|by apply (Hres s)].
    apply N1. rewrite <- H2. by rewrite admit_negate.
  - destruct H2 as [H2|[H2 N2]].
    { rewrite <- H2 in Ek. by rewrite is_negation_negate in Ek. }
    destruct H1 as [->|[H1 _]]; [done|]. by apply (Hres s).
Qed.

Lemma polarity_exclusive_fold L : ∀ res,
  polarity_exclusive res → polarity_exclusive (foldl merge_add res L).
Proof.
  induction L as [|k L IH]; intros res H; [done|].
  simpl. apply IH. by apply polarity_exclusive_add.
Qed.

(** ** The store that [_set_schema] builds *)

Lemma split_nonempty sep s : Str.split sep s ≠ [].
Proof.
  destruct s as [|c s]; simpl; [done|].
  destruct (Ascii.eqb c sep); [done|]. by destruct (Str.split sep s).
Qed.

Lemma head_tail_split k h t :
  head_tail k = (h, t) ↔ Str.split _DELIM_char k = h :: t.
Proof.
  unfold head_tail. pose proof (split_nonempty _DELIM_char k).
  destruct (Str.split _DELIM_char k); [done|]. split; congruence.
Qed.

Lemma tails_nonempty_empty : tails_nonempty ∅.
Proof. intros h ts H. by rewrite lookup_empty in H. Qed.

Lemma tails_nonempty_step keys k :
  tails_nonempty keys → tails_nonempty (set_schema_step keys k).
Proof.
  intros Hk. unfold set_schema_step.
  destruct (head_tail k) as [h t].
  destruct (keys !! h) as [ts|] eqn:E.
  - destruct t as [|x t]; [done|].
    intros h' ts'. rewrite lookup_insert. case_decide as Hh.
    + intros [= <-]. apply Forall_app. split; [by apply (Hk h)|].
      by repeat constructor.
    + apply Hk.
  - intros h' ts'. rewrite lookup_insert. case_decide as Hh; [|apply Hk].
    intros [= <-]. destruct t; by repeat constructor.
Qed.

Lemma tails_nonempty_set_schema ks : ∀ keys,
  tails_nonempty keys → tails_nonempty (_set_schema keys ks).
Proof.
  induction ks as [|k ks IH]; intros keys H; [done|].
  simpl. apply IH. by apply tails_nonempty_step.
Qed.

Lemma negated_loop_nonempty ts :
  Forall (λ t, t ≠ []) ts → negated_loop ts = (shift_negation <$> ts, false).
Proof.
  induction 1 as [|t ts Ht _ IH]; [done|].
  destruct t as [|x t]; [done|]. simpl. by rewrite IH.
Qed.


(** The [raise] is reached when, and only when, the list of tails under
    the negated key holds an empty tail. *)
Lemma negated_loop_raises ts :
  (negated_loop ts).2 = true ↔ [] ∈ ts.
Proof.
  induction ts as [|t ts IH]; simpl.
  - split; [done|]. by intros ?%elem_of_nil.
  - destruct t as [|x t]; simpl.
    + split; [|done]. intros _. by left.
    + destruct (negated_loop ts) as [ts' raised]. simpl in *.
      rewrite IH. rewrite elem_of_cons. naive_solver.
Qed.

Lemma get_sub_schema_empty_tail_raises (keys : store) key ts :
  keys !! _negate key = Some ts → [] ∈ ts →
  ∃ keys' msg, _get_sub_schema keys key = (keys', inl (Exception msg)).
Proof.
  intros H Hts. apply negated_loop_raises in Hts.
  unfold _get_sub_schema. rewrite H.
  destruct (negated_loop ts) as [ts' raised]. simpl in Hts. subst raised.
  by eauto.
Qed.


(** ** The depth bound of [call]

    More depth never changes an answer, and a bound above the nesting of
    the value always gives one. *)

Section depth_bound.

Context (rt : runtime) (kw : kwargs).

Implicit Types rec : store → value → list string → option (result json).

Lemma serialize_iter_loop_mono rec rec' items : ∀ keys res r,
  extends rec rec' →
  serialize_iter_loop rec items keys res = Some r →
  serialize_iter_loop rec' items keys res = Some r.
Proof.
  induction items as [|v items IH]; intros keys res r Hext; [done|].
  simpl. destruct (rec keys v []) as [[keys1 [e|j]]|] eqn:E; [| |done].
  - rewrite (Hext _ _ _ _ E). destruct e; [by apply IH|done].
  - rewrite (Hext _ _ _ _ E). by apply IH.
Qed.

Lemma fork_mono rec rec' keys key v r :
  extends rec rec' →
  _fork rec keys key v = Some r → _fork rec' keys key v = Some r.
Proof.
  intros Hext. unfold _fork. destruct (as_simple v); [done|].
  destruct (_get_sub_schema keys key) as [keys1 [e|sub]]; [done|].
  destruct (rec ∅ v sub) as [[? ?]|] eqn:E; [|done].
  by rewrite (Hext _ _ _ _ E).
Qed.

Lemma serialize_keyed_loop_mono rec rec' items : ∀ keys res r,
  extends rec rec' →
  serialize_keyed_loop kw rec items keys res = Some r →
  serialize_keyed_loop kw rec' items keys res = Some r.
Proof.
  induction items as [|[k v] items IH]; intros keys res r Hext; [done|].
  simpl. destruct (_is_valid kw keys k); [|by apply IH].
  destruct (_fork rec keys k v) as [[keys1 [e|j]]|] eqn:E; [| |done].
  - by rewrite (fork_mono _ _ _ _ _ _ Hext E).
  - rewrite (fork_mono _ _ _ _ _ _ Hext E). by apply IH.
Qed.

Lemma call_body_mono rec rec' keys v sch r :
  extends rec rec' →
  call_body rt kw rec keys v sch = Some r →
  call_body rt kw rec' keys v sch = Some r.
Proof.
  intros Hext. unfold call_body.
  destruct (as_simple (resolve v)); [done|].
  destruct (as_datetime (resolve v)); [done|].
  destruct (as_date (resolve v)); [done|].
  destruct (as_iterable (resolve v)).
  { by apply serialize_iter_loop_mono. }
  destruct (as_mixin (resolve v)) as [[? ?]|].
  { by apply serialize_keyed_loop_mono. }
  destruct (as_dict (resolve v)); [|done].
  by apply serialize_keyed_loop_mono.
Qed.

Lemma call_S n : extends (call n rt kw) (call (S n) rt kw).
Proof.
  induction n as [|n IH]; intros keys v sch r; [done|].
  intros H. change (call_body rt kw (call (S n) rt kw) keys v sch = Some r).
  by apply (call_body_mono (call n rt kw)).
Qed.

Lemma call_mono n m : n ≤ m → extends (call n rt kw) (call m rt kw).
Proof.
  induction 1 as [|m _ IH]; [by intros ? ? ? ?|].
  intros keys v sch r H. by apply call_S, IH.
Qed.

(** *** Enough depth gives an answer *)

Lemma serialize_iter_loop_total rec items : ∀ keys res,
  (∀ x keys sch, x ∈ items → is_Some (rec keys x sch)) →
  is_Some (serialize_iter_loop rec items keys res).
Proof.
  induction items as [|v items IH]; intros keys res Hrec; [by eexists|].
  simpl. destruct (Hrec v keys [] ltac:(left)) as [[keys1 [e|j]] ->].
  - destruct e; [|by eexists]. apply IH. intros; apply Hrec. by right.
  - apply IH. intros; apply Hrec. by right.
Qed.

Lemma fork_total rec keys key v :
  (∀ keys sch, is_Some (rec keys v sch)) → is_Some (_fork rec keys key v).
Proof.
  intros Hrec. unfold _fork. destruct (as_simple v); [by eexists|].
  destruct (_get_sub_schema keys key) as [keys1 [e|sub]]; [by eexists|].
  destruct (Hrec ∅ sub) as [[? ?] ->]. by eexists.
Qed.

Lemma serialize_keyed_loop_total rec items : ∀ keys res,
  (∀ kv keys sch, kv ∈ items → is_Some (rec keys kv.2 sch)) →
  is_Some (serialize_keyed_loop kw rec items keys res).
Proof.
  induction items as [|[k v] items IH]; intros keys res Hrec; [by eexists|].
  assert (∀ kv keys sch, kv ∈ items → is_Some (rec keys kv.2 sch)) as Hrest.
  { intros; apply Hrec. by right. }
  simpl. destruct (_is_valid kw keys k); [|by apply IH].
  destruct (fork_total rec keys k v) as [[keys1 [e|j]] ->].
  - intros; apply (Hrec (k, v)). by left.
  - by eexists.
  - by apply IH.
Qed.

Lemma depth_elem (x : value) items :
  x ∈ items → depth x ≤ foldr (λ x n, depth x `max` n) 0 items.
Proof.
  induction 1 as [|? ? ? _ IH]; simpl; lia.
Qed.

Lemma depth_attr (kv : string * value) items :
  kv ∈ items → depth kv.2 ≤ foldr (λ kv n, depth kv.2 `max` n) 0 items.
Proof.
  induction 1 as [|? ? ? _ IH]; simpl; lia.
Qed.

Lemma depth_resolve v : depth (resolve v) = depth v.
Proof. by destruct v. Qed.

Lemma call_total n : ∀ v keys sch,
  depth v < n → is_Some (call n rt kw keys v sch).
Proof.
  induction n as [|n IH]; intros v keys sch Hd; [lia|].
  rewrite <- depth_resolve in Hd.
  change (is_Some (call_body rt kw (call n rt kw) keys v sch)).
  unfold call_body. destruct (resolve v) as [p|d|d|items|items|s0 attrs|r|];
    try by eexists.
  - simpl in *. apply serialize_iter_loop_total.
    intros x keys1 sch1 Hx. apply IH. apply depth_elem in Hx. lia.
  - simpl in *. apply serialize_iter_loop_total.
    intros x keys1 sch1 Hx. apply IH.
    apply list_elem_of_fmap in Hx as (kv & -> & _). simpl. lia.
  - simpl in *. apply serialize_keyed_loop_total.
    intros x keys1 sch1 Hx. apply IH. apply depth_attr in Hx. lia.
Qed.

(** [Serializer] answers, and any larger bound gives its answer. *)
Lemma Serializer_total v sch : is_Some (Serializer rt kw v sch).
Proof. apply call_total. lia. Qed.

Lemma Serializer_call n v sch :
  depth v < n → call n rt kw ∅ v sch = Serializer rt kw v sch.
Proof.
  intros Hn. destruct (Serializer_total v sch) as [r Hr].
  rewrite Hr. apply (call_mono (S (depth v))); [lia|done].
Qed.

End depth_bound.

(** ** Where [IsNotSerializable] comes from and where it goes *)

Section not_serializable.

Context (rt : runtime) (kw : kwargs).

Implicit Types rec : store → value → list string → option (result json).

Lemma serialize_iter_loop_catches rec items : ∀ keys res keys' msg,
  serialize_iter_loop rec items keys res
    ≠ Some (keys', inl (IsNotSerializable msg)).
Proof.
  induction items as [|v items IH]; intros keys res keys' msg; [done|].
  simpl. destruct (rec keys v []) as [[keys1 [[m|m]|j]]|]; try done; apply IH.
Qed.





End not_serializable.

(** ** A dict goes through the iterable branch *)

Lemma serialize_iter_loop_dict_keys rt kw n (items : list (string * value)) :
  ∀ keys res,
  serialize_iter_loop (call (S n) rt kw)
    ((λ kv, VSimple (PStr kv.1)) <$> items) keys res
  = Some (keys, inr (JList (res ++ ((λ kv, JSimple (PStr kv.1)) <$> items)))).
Proof.
  induction items as [|[k v] items IH]; intros keys res.
  - simpl. by rewrite app_nil_r.
  - cbn [fmap list_fmap serialize_iter_loop].
    change (call (S n) rt kw keys (VSimple (PStr (k, v).1)) [])
      with (Some (keys, @inr exn json (JSimple (PStr k)))).
    cbn iota. rewrite IH. by rewrite <- app_assoc.
Qed.

(** ** Decomposing a dotted schema

    What [_set_schema] files under a head, what the forks of the other
    attributes leave of it, and what the loop of [serialize_model] leaves
    of a result already written. *)

Lemma set_schema_lookup l : ∀ (keys : store) h,
  _set_schema keys l !! h =
    match keys !! h with
    | Some ts => Some (ts ++ tails_for h l)
    | None => if decide (mentions h l) then Some (tails_for h l) else None
    end.
Proof.
  induction l as [|k l IH]; intros keys h.
  - unfold _set_schema. cbn [foldl]. destruct (keys !! h).
    { unfold tails_for. cbn. by rewrite app_nil_r. }
    case_decide as H; [|done]. by apply Exists_nil in H.
  - cbn [_set_schema foldl]. fold (_set_schema (set_schema_step keys k) l).
    rewrite IH. unfold set_schema_step, tails_for, mentions.
    cbn [omap list_omap]. destruct (head_tail k) as [hd tl] eqn:Ek. cbn [fst snd].
    destruct (decide (hd = h)) as [->|Hne].
    + rewrite bool_decide_eq_true_2 by done.
      destruct (keys !! h) as [ts|] eqn:E.
      * destruct tl as [|x tl]; [by rewrite E|].
        rewrite lookup_insert_eq. by rewrite <- app_assoc.
      * rewrite lookup_insert_eq. case_decide as H; [by destruct tl|].
        exfalso. apply H. left. by rewrite Ek.
    + rewrite bool_decide_eq_false_2 by done.
      assert ((match keys !! hd with
               | Some tails => match tl with [] => keys | _ :: _ => <[hd:=tails ++ [tl]]> keys end
               | None => <[hd:=match tl with [] => [] | _ :: _ => [tl] end]> keys
               end) !! h = keys !! h) as ->.
      { destruct (keys !! hd); [destruct tl|]; by rewrite ?lookup_insert_ne. }
      destruct (keys !! h); [done|].
      assert (Exists (λ k0, (head_tail k0).1 = h) (k :: l)
              ↔ Exists (λ k0, (head_tail k0).1 = h) l) as Hiff.
      { rewrite Exists_cons, Ek. naive_solver. }
      do 2 case_decide; tauto.
Qed.







Lemma get_sub_schema_frame (keys : store) key h :
  h ≠ _negate key → (_get_sub_schema keys key).1 !! h = keys !! h.
Proof.
  intros Hh. unfold _get_sub_schema.
  destruct (keys !! _negate key) as [ts|]; [|done].
  destruct (negated_loop ts) as [ts' []]; cbn; by rewrite lookup_insert_ne.
Qed.

Section frames.
Context (kw : kwargs).
Context (rec : store → value → list string → option (result json)).

Lemma fork_frame keys key v keys1 r h :
  _fork rec keys key v = Some (keys1, r) →
  h ≠ _negate key → keys1 !! h = keys !! h.
Proof.
  unfold _fork. destruct (as_simple v); [by intros [= <- _]|].
  intros H Hh. rewrite <- (get_sub_schema_frame keys key h Hh).
  destruct (_get_sub_schema keys key) as [keys2 [e|sub]]; [by injection H as <-|].
  destruct (rec ∅ v sub) as [[? ?]|]; [|done]. by injection H as <-.
Qed.






End frames.




(** * The claims *)

(** C1. The claim fails on the code: a dict is an [Iterable], the test for
    iterables comes before the test for dicts, and so every dict is
    serialized as the list of its keys, in order; the schema is not loaded
    (the store is left as it was).  On the dict {name: 'Ann', age: 30} with
    schema ['-age'] the call returns ['name', 'age'], where the branch for
    dicts would have returned {name: 'Ann'}. *)
Theorem dict_serialized_as_list_of_keys :
  (∀ rt kw n keys items schema,
     call (S (S n)) rt kw keys (VDict items) schema
     = Some (keys, inr (JList ((λ kv, JSimple (PStr kv.1)) <$> items)))) ∧
  Serializer sample_runtime default_kwargs
    (VDict [("name", VSimple (PStr "Ann")); ("age", VSimple (PInt 30))]) ["-age"]
  = Some (∅, inr (JList [JSimple (PStr "name"); JSimple (PStr "age")])) ∧
  serialize_dict default_kwargs (call 1 sample_runtime default_kwargs)
    (_set_schema ∅ ["-age"])
    [("name", VSimple (PStr "Ann")); ("age", VSimple (PInt 30))]
  = Some (_set_schema ∅ ["-age"], inr (JDict [("name", JSimple (PStr "Ann"))])).
Proof.
  split; [|split; by vm_compute].
  intros rt kw n keys items schema.
  change (call (S (S n)) rt kw keys (VDict items) schema)
    with (serialize_iter_loop (call (S n) rt kw)
            ((λ kv, VSimple (PStr kv.1)) <$> items) keys []).
  by rewrite serialize_iter_loop_dict_keys.
Qed.

(** C2. The claim fails on the code.  [_get_sub_schema] rewrites the store:
    after the schema ['-a.b'] is loaded, asking for the sub-schema of 'a'
    turns the stored tail ['b'] into ['-b'], and asking again returns a
    different sub-schema; serializing a model with that default schema
    leaves the rewritten store behind.  And an instance that serializes a
    list of models loads a schema once for every model of the list. *)
Theorem get_sub_schema_rewrites_store :
  (_set_schema ∅ ["-a.b"] : store) = {["-a" := [["b"]]]} ∧
  _get_sub_schema {["-a" := [["b"]]]} "a" = ({["-a" := [["-b"]]]}, inr ["-b"]) ∧
  _get_sub_schema {["-a" := [["-b"]]]} "a" = ({["-a" := [["--b"]]]}, inr ["--b"]) ∧
  ({["-a" := [["-b"]]]} : store) ≠ {["-a" := [["b"]]]} ∧
  fst <$> Serializer sample_runtime default_kwargs
            (VModel ["-a.b"] [("a", VModel [] [])]) []
  = Some {["-a" := [["-b"]]]} ∧
  fst <$> Serializer sample_runtime default_kwargs
            (VList [VModel ["a.b"] [("a", VModel [] [])];
                    VModel ["a.b"] [("a", VModel [] [])]]) []
  = Some {["a" := [["b"]; ["b"]]]}.
Proof.
  repeat split; by vm_compute.
Qed.


(** C4. [_is_valid] runs its checks in the order of section 4.2: an empty
    list of tails under the negated key excludes the key whatever else the
    store and the greedy flag say; otherwise a wildcard key includes it;
    otherwise its own presence includes it; otherwise it is included
    exactly when the instance is greedy and the key has no leading
    underscore. *)
Theorem is_valid_check_order kw (keys : store) key :
  _is_valid kw keys key = IsIncluded_spec kw keys key.
Proof.
  unfold _is_valid, IsIncluded_spec.
  destruct (keys !! _negate key) as [[|t ts]|] eqn:E; simpl;
    try (rewrite bool_decide_eq_false_2 by done);
    try (rewrite bool_decide_eq_true_2 by done); try done.
  all: rewrite (bool_decide_ext _ _ (elem_of_dom keys _WILDCARD));
    case_bool_decide; try done;
    rewrite (bool_decide_ext _ _ (elem_of_dom keys key));
    by case_bool_decide.
Qed.

(** C5. [merge_schemas] folds its argument lists from left to right (lowest
    priority first); adding a key removes the key of opposite polarity (a
    plain key removes its negated form, a negated key its plain form)
    before the key is added; merging ['-x'] below ['x'] leaves exactly
    'x'. *)
Theorem merge_left_to_right_cancels :
  (∀ args, merge_schemas args = foldl merge_add ∅ (concat args)) ∧
  (∀ res k, merge_add res k =
     if _is_negation k then (res ∖ {[_admit k]}) ∪ {[k]}
     else (res ∖ {[_negate k]}) ∪ {[k]}) ∧
  (∀ res k, merge_add res (_negate k) = (res ∖ {[k]}) ∪ {[_negate k]}) ∧
  merge_schemas [["-x"]; ["x"]] = {["x"]} ∧
  "x" ∈ merge_schemas [["-x"]; ["x"]] ∧
  "-x" ∉ merge_schemas [["-x"]; ["x"]].
Proof.
  assert (Hx : merge_schemas [["-x"]; ["x"]] = {["x"]}).
  { rewrite merge_schemas_fold. simpl. rewrite !merge_add_opposite.
    change (opposite "-x") with "x". change (opposite "x") with "-x".
    set_solver. }
  split; [apply merge_schemas_fold|].
  split. { intros res k. rewrite merge_add_opposite. unfold opposite.
           by destruct (_is_negation k). }
  split. { intros res k. by rewrite merge_add_opposite. }
  rewrite Hx. split; [done|]. set_solver.
Qed.

(** C6. Merging a list with itself gives the set that merging it alone
    gives. *)
Theorem merge_idempotent (L : list string) :
  merge_schemas [L; L] = merge_schemas [L].
Proof.
  rewrite !merge_schemas_fold. simpl. rewrite !app_nil_r, foldl_app.
  apply merge_pass_twice.
Qed.






(** C9, as amended. A merged schema never holds a plain path (one that does
    not start with the negation marker) together with its negated form. *)
Theorem merge_plain_excludes_negated (args : list (list string)) (s : string) :
  _is_negation s = false →
  ¬ (s ∈ merge_schemas args ∧ _negate s ∈ merge_schemas args).
Proof.
  intros Hs. rewrite merge_schemas_fold.
  apply polarity_exclusive_fold; [|done].
  intros s' _ [H _]. set_solver.
Qed.

Lemma merge_plain_excludes_negated_witness :
  _is_negation "x" = false ∧
  ¬ ("x" ∈ merge_schemas [["-x"]; ["x"]] ∧
     _negate "x" ∈ merge_schemas [["-x"]; ["x"]]).
Proof.
  split; [reflexivity|].
  apply (merge_plain_excludes_negated [["-x"]; ["x"]] "x"). reflexivity.
Defined.

(** C9, as stated, fails on a path that is itself negated: adding '-x'
    cancels 'x' only, so '--x' added before it stays. *)
Lemma merge_keeps_negated_with_its_negation :
  "-x" ∈ merge_schemas [["--x"; "-x"]] ∧
  _negate "-x" ∈ merge_schemas [["--x"; "-x"]].
Proof.
  rewrite merge_schemas_fold. simpl. rewrite !merge_add_opposite.
  change (opposite "--x") with "-x". change (opposite "-x") with "x".
  change (_negate "-x") with "--x". set_solver.
Qed.

(** C10. A value of a simple type comes back unchanged and leaves the store
    alone, whatever the schema; strings and byte strings are iterable, yet
    the test for simple types comes first, so they are returned whole and
    not as the list of their characters or bytes. *)
Theorem simple_values_returned_unchanged rt kw :
  (∀ n keys p schema,
     call (S n) rt kw keys (VSimple p) schema = Some (keys, inr (JSimple p))) ∧
  (∀ p schema, Serializer rt kw (VSimple p) schema = Some (∅, inr (JSimple p))) ∧
  (∀ s, as_iterable (VSimple (PStr s)) = Some (VSimple ∘ PStr <$> chars s) ∧
        Serializer rt kw (VSimple (PStr s)) [] = Some (∅, inr (JSimple (PStr s)))) ∧
  (∀ b, is_Some (as_iterable (VSimple (PBytes b))) ∧
        Serializer rt kw (VSimple (PBytes b)) [] = Some (∅, inr (JSimple (PBytes b)))).
Proof. repeat split; done. Qed.

(** * Further properties of the code *)

(** ** Paths: splitting and joining *)

Lemma append_cons c s t : String c s +:+ t = String c (s +:+ t).
Proof. reflexivity. Qed.

Lemma dotted_cons c h p : dotted (String c h) p = String c (dotted h p).
Proof. reflexivity. Qed.

Lemma dotted_nil p : dotted "" p = String "." p.
Proof. reflexivity. Qed.

Lemma split_dotted h p :
  segment h → Str.split _DELIM_char (dotted h p) = h :: Str.split _DELIM_char p.
Proof.
  unfold segment. induction h as [|c h IH]; intros Hh.
  - rewrite dotted_nil. reflexivity.
  - simpl in Hh. apply orb_false_elim in Hh as [Hc Hh].
    rewrite dotted_cons. cbn [Str.split]. rewrite Hc, IH by done. done.
Qed.

Lemma split_head_segment s h t :
  Str.split _DELIM_char s = h :: t → segment h.
Proof.
  unfold segment. revert h t. induction s as [|c s IH]; intros h t; simpl.
  - by intros [= <- <-].
  - destruct (Ascii.eqb c _DELIM_char) eqn:Ec.
    + by intros [= <- <-].
    + destruct (Str.split _DELIM_char s) as [|w ws] eqn:Es.
      * by intros [= <- <-]; simpl; rewrite Ec.
      * intros [= <- <-]. simpl. rewrite Ec. by eapply IH.
Qed.

Lemma join_cons_char c w ws :
  Str.join _DELIM (String c w :: ws) = String c (Str.join _DELIM (w :: ws)).
Proof. unfold Str.join. by destruct ws. Qed.

Lemma join_cons_cons h x t :
  Str.join _DELIM (h :: x :: t) = dotted h (Str.join _DELIM (x :: t)).
Proof. reflexivity. Qed.

Lemma join_split s : Str.join _DELIM (Str.split _DELIM_char s) = s.
Proof.
  induction s as [|c s IH]; [done|]. cbn [Str.split].
  destruct (Ascii.eqb_spec c _DELIM_char) as [->|Hc].
  - pose proof (split_nonempty _DELIM_char s) as Hne.
    destruct (Str.split _DELIM_char s) as [|w ws]; [done|].
    rewrite join_cons_cons, IH. reflexivity.
  - pose proof (split_nonempty _DELIM_char s) as Hne.
    destruct (Str.split _DELIM_char s) as [|w ws]; [done|].
    by rewrite join_cons_char, IH.
Qed.

Lemma head_tail_dotted h p :
  segment h → head_tail (dotted h p) = (h, Str.split _DELIM_char p).
Proof. intros Hh. apply head_tail_split. by apply split_dotted. Qed.

Lemma head_tail_bare h : segment h → head_tail h = (h, []).
Proof.
  intros Hh. apply head_tail_split. unfold segment in Hh.
  induction h as [|c h IH]; [done|]. simpl in Hh.
  apply orb_false_elim in Hh as [Hc Hh]. cbn [Str.split].
  by rewrite Hc, IH.
Qed.

(** A path whose head is [h]: the bare head, or the head, a dot and the
    joined tail. *)
Lemma head_tail_inv k h t :
  head_tail k = (h, t) →
  segment h ∧ (t = [] ∧ k = h ∨ t ≠ [] ∧ k = dotted h (Str.join _DELIM t)).
Proof.
  intros H%head_tail_split. split; [by eapply split_head_segment|].
  pose proof (join_split k) as Hk. rewrite H in Hk.
  destruct t as [|x t]; [left|right]; by split.
Qed.

Lemma negate_segment h : segment h → segment (_negate h).
Proof. unfold segment. rewrite negate_cons. simpl. done. Qed.

Lemma negate_dotted h p : _negate (dotted h p) = dotted (_negate h) p.
Proof. reflexivity. Qed.

(** ** What a loaded store holds, path by path *)

Lemma elem_of_tails_for t h ks :
  t ∈ tails_for h ks ↔ t ≠ [] ∧ ∃ k, k ∈ ks ∧ head_tail k = (h, t).
Proof.
  unfold tails_for. rewrite list_elem_of_omap. split.
  - intros (k & Hk & H). case_bool_decide as Hh; [|done].
    destruct (head_tail k) as [h' t'] eqn:E. simpl in *. subst h'.
    destruct t' as [|x t']; [done|]. injection H as <-. by eauto.
  - intros (Ht & k & Hk & E). exists k. split; [done|]. rewrite E. simpl.
    rewrite bool_decide_eq_true_2 by done. by destruct t.
Qed.

Lemma mentions_headed h ks : segment h → mentions h ks ↔ headed h ks.
Proof.
  intros Hh. unfold mentions, headed. rewrite Exists_exists. split.
  - intros (k & Hk & E). destruct (head_tail k) as [h' t] eqn:Ek.
    simpl in E. subst h'. apply head_tail_inv in Ek as [_ [[_ ->]|[_ ->]]];
      [by left|right; by eauto].
  - intros [H|[p H]].
    + exists h. split; [done|]. by rewrite head_tail_bare.
    + exists (dotted h p). split; [done|]. by rewrite head_tail_dotted.
Qed.

Lemma tails_for_dotted h ks q :
  segment h →
  (∃ t, t ∈ tails_for h ks ∧ q = Str.join _DELIM t) ↔ dotted h q ∈ ks.
Proof.
  intros Hh. split.
  - intros (t & (Ht & k & Hk & E)%elem_of_tails_for & ->).
    apply head_tail_inv in E as [_ [[? _]|[_ ->]]]; done.
  - intros H. exists (Str.split _DELIM_char q). split; [|by rewrite join_split].
    apply elem_of_tails_for. split; [apply split_nonempty|].
    exists (dotted h q). split; [done|]. by apply head_tail_dotted.
Qed.

Lemma tails_for_unmentioned h ks : ¬ mentions h ks → tails_for h ks = [].
Proof.
  intros Hm. destruct (tails_for h ks) as [|t ts] eqn:E; [done|]. exfalso.
  assert (t ∈ tails_for h ks) as Ht by (rewrite E; by left).
  apply elem_of_tails_for in Ht as (_ & k & Hk & Ek).
  apply Hm, Exists_exists. exists k. by rewrite Ek.
Qed.

Lemma tails_for_nonempty h ks : Forall (λ t, t ≠ []) (tails_for h ks).
Proof.
  apply Forall_forall. by intros t [? _]%elem_of_tails_for.
Qed.

Lemma loaded_lookup ks h :
  default [] ((_set_schema ∅ ks : store) !! h) = tails_for h ks.
Proof.
  rewrite set_schema_lookup, lookup_empty. case_decide as Hm; [done|].
  by rewrite tails_for_unmentioned.
Qed.

Lemma filter_nonempty_tails (ts : list (list string)) :
  Forall (λ t, t ≠ []) ts → filter (λ k, nonempty_tail k = true) ts = ts.
Proof.
  induction 1 as [|t ts Ht _ IH]; [done|].
  rewrite filter_cons, IH. destruct t; [done|]. by rewrite decide_True.
Qed.

Lemma get_sub_schema_loaded ks h :
  (_get_sub_schema (_set_schema ∅ ks) h).2 =
    inr (Str.join _DELIM <$>
           (tails_for h ks ++ (shift_negation <$> tails_for (_negate h) ks))).
Proof.
  unfold _get_sub_schema. rewrite loaded_lookup.
  rewrite (filter_nonempty_tails _ (tails_for_nonempty h ks)).
  rewrite (set_schema_lookup ks ∅ (_negate h)), lookup_empty.
  case_decide as Hm.
  - by rewrite (negated_loop_nonempty _ (tails_for_nonempty _ ks)).
  - rewrite (tails_for_unmentioned _ _ Hm). simpl. by rewrite app_nil_r.
Qed.

Lemma join_shift_negation t :
  t ≠ [] → Str.join _DELIM (shift_negation t) = _negate (Str.join _DELIM t).
Proof.
  destruct t as [|x t]; [done|]. intros _. simpl.
  rewrite !negate_cons. apply join_cons_char.
Qed.

(** X1. After a schema is loaded into a fresh store, the sub-schema of a
    head [h] holds a path [q] exactly when the schema holds 'h.q', or [q]
    is '-p' for a path '-h.p' of the schema: the dotted paths are handed
    down one level with the head stripped, the negation mark moving to the
    next segment, and nothing else is handed down. *)
Theorem sub_schema_of_loaded_store (ks : list string) (h : string) :
  segment h →
  ∃ keys' sub,
    _get_sub_schema (_set_schema ∅ ks) h = (keys', inr sub) ∧
    ∀ q, q ∈ sub ↔
      dotted h q ∈ ks ∨ ∃ p, q = _negate p ∧ _negate (dotted h p) ∈ ks.
Proof.
  intros Hh. pose proof (get_sub_schema_loaded ks h) as Hsub.
  destruct (_get_sub_schema (_set_schema ∅ ks) h) as [keys' r]. simpl in Hsub.
  subst r. eexists _, _. split; [done|]. intros q.
  rewrite list_elem_of_fmap. setoid_rewrite elem_of_app.
  rewrite <- (tails_for_dotted h ks q Hh). split.
  - intros (t & -> & [Ht|Ht]); [left; by eauto|right].
    apply list_elem_of_fmap in Ht as (t' & -> & Ht').
    pose proof Ht' as [Hne _]%elem_of_tails_for.
    exists (Str.join _DELIM t'). split; [by apply join_shift_negation|].
    rewrite negate_dotted.
    apply (tails_for_dotted (_negate h)); [by apply negate_segment|by eauto].
  - intros [(t & Ht & ->)|(p & -> & Hp)]; [by eauto|].
    rewrite negate_dotted in Hp.
    apply (tails_for_dotted (_negate h)) in Hp as (t & Ht & ->);
      [|by apply negate_segment].
    pose proof Ht as [Hne _]%elem_of_tails_for.
    exists (shift_negation t). split; [by rewrite join_shift_negation|].
    right. by apply list_elem_of_fmap_2.
Qed.

Lemma sub_schema_of_loaded_store_witness :
  segment "a" ∧
  ∃ keys' sub,
    _get_sub_schema (_set_schema ∅ ["a.b"; "-a.c.d"; "e"]) "a"
    = (keys', inr sub) ∧
    ∀ q, q ∈ sub ↔
      dotted "a" q ∈ ["a.b"; "-a.c.d"; "e"] ∨
      ∃ p, q = _negate p ∧ _negate (dotted "a" p) ∈ ["a.b"; "-a.c.d"; "e"].
Proof.
  split; [reflexivity|].
  apply (sub_schema_of_loaded_store ["a.b"; "-a.c.d"; "e"] "a"). reflexivity.
Defined.

(** ** Visibility, read off the schema *)

Lemma loaded_excluded ks k :
  segment k →
  (_set_schema ∅ ks : store) !! _negate k = Some [] ↔
  _negate k ∈ ks ∧ ∀ p, _negate (dotted k p) ∉ ks.
Proof.
  intros Hk. pose proof (negate_segment k Hk) as Hn.
  rewrite set_schema_lookup, lookup_empty. split.
  - case_decide as Hm; [|done]. intros [= Ht].
    apply (mentions_headed _ _ Hn) in Hm as [Hm|[p Hp]].
    + split; [done|]. intros p Hp. rewrite negate_dotted in Hp.
      apply (tails_for_dotted _ _ _ Hn) in Hp as (t & Ht' & _).
      rewrite Ht in Ht'. by apply elem_of_nil in Ht'.
    + apply (tails_for_dotted _ _ _ Hn) in Hp as (t & Ht' & _).
      rewrite Ht in Ht'. by apply elem_of_nil in Ht'.
  - intros [Hin Hno]. rewrite decide_True.
    2:{ apply (mentions_headed _ _ Hn). by left. }
    f_equal. destruct (tails_for (_negate k) ks) as [|t ts] eqn:E; [done|].
    exfalso. apply (Hno (Str.join _DELIM t)). rewrite negate_dotted.
    apply (tails_for_dotted _ _ _ Hn). exists t. rewrite E. split; [by left|done].
Qed.

Lemma loaded_present ks h :
  segment h → is_Some ((_set_schema ∅ ks : store) !! h) ↔ headed h ks.
Proof.
  intros Hh. rewrite set_schema_lookup, lookup_empty.
  rewrite <- (mentions_headed h ks Hh). case_decide; split; by try intros [? ?].
Qed.

(** X2. Which fields a loaded schema lets through.  A field [k] passes
    [_is_valid] exactly when the schema does not hold '-k' bare and
    without any '-k.p' beside it, and either a path is headed by the
    wildcard, or a path is headed by [k], or the instance is greedy and
    [k] has no leading underscore.  In particular '-k' excludes [k] only
    as long as no '-k.p' is in the schema. *)
Theorem is_valid_of_loaded_schema kw (ks : list string) (k : string) :
  segment k →
  _is_valid kw (_set_schema ∅ ks) k = true ↔
    ¬ (_negate k ∈ ks ∧ ∀ p, _negate (dotted k p) ∉ ks) ∧
    (headed _WILDCARD ks ∨ headed k ks ∨
     (is_greedy kw = true ∧ Str.startswith "_" k = false)).
Proof.
  intros Hk. rewrite <- (loaded_excluded ks k Hk).
  rewrite <- (loaded_present ks _WILDCARD) by done.
  rewrite <- (loaded_present ks k Hk).
  unfold _is_valid.
  destruct ((_set_schema ∅ ks : store) !! _negate k) as [[|t ts]|]; simpl.
  - split; [done|]. by intros [[] _].
  - case_bool_decide; [by intuition|].
    rewrite orb_true_iff, andb_true_iff, negb_true_iff, bool_decide_eq_true.
    split; [|by intuition]. intros Hv. split; [done|]. by right.
  - case_bool_decide; [by intuition|].
    rewrite orb_true_iff, andb_true_iff, negb_true_iff, bool_decide_eq_true.
    split; [|by intuition]. intros Hv. split; [done|]. by right.
Qed.

Lemma is_valid_of_loaded_schema_witness :
  segment "age" ∧
  (_is_valid default_kwargs (_set_schema ∅ ["-age"; "-age.unit"]) "age" = true ↔
    ¬ (_negate "age" ∈ ["-age"; "-age.unit"] ∧
       ∀ p, _negate (dotted "age" p) ∉ ["-age"; "-age.unit"]) ∧
    (headed _WILDCARD ["-age"; "-age.unit"] ∨ headed "age" ["-age"; "-age.unit"] ∨
     (is_greedy default_kwargs = true ∧ Str.startswith "_" "age" = false))).
Proof.
  split; [reflexivity|].
  apply (is_valid_of_loaded_schema default_kwargs ["-age"; "-age.unit"] "age").
  reflexivity.
Defined.

(** ** Keys and the merged schema *)

(** X3. [_negate] and [_admit] undo each other: stripping the mark that
    [_negate] adds gives the key back, putting the mark back on a negated
    key that [_admit] stripped gives the key back, and [_admit] leaves a
    plain key alone. *)
Theorem negate_admit_round_trip (k : string) :
  _admit (_negate k) = k ∧
  _is_negation (_negate k) = true ∧
  (if _is_negation k then _negate (_admit k) = k else _admit k = k).
Proof.
  repeat split. destruct (_is_negation k) eqn:E.
  - by apply negate_admit.
  - unfold _admit. by rewrite E.
Qed.

Lemma foldl_merge_add_snoc (res : gset string) L k :
  foldl merge_add res (L ++ [k]) = merge_add (foldl merge_add res L) k.
Proof. by rewrite foldl_app. Qed.

(** X4. What survives a merge.  A path is in the merged schema exactly
    when it occurs in the argument lists, read from the first list to the
    last, at a place after which no key of the opposite polarity occurs:
    the merge invents nothing, and the last writer of a key wins. *)
Theorem merge_survivors (args : list (list string)) (s : string) :
  s ∈ merge_schemas args ↔
  ∃ l1 l2, concat args = l1 ++ s :: l2 ∧ ∀ k, k ∈ l2 → opposite k ≠ s.
Proof.
  rewrite merge_schemas_fold. generalize (concat args). clear args.
  intros L. induction L as [|k L IH] using rev_ind.
  - simpl. split; [set_solver|]. intros (l1 & l2 & H & _). by destruct l1.
  - rewrite foldl_merge_add_snoc, elem_of_merge_add, IH. split.
    + intros [->|[(l1 & l2 & -> & Hl2) Hk]].
      * exists L, []. split; [done|]. by intros k' ?%elem_of_nil.
      * exists l1, (l2 ++ [k]). split; [by rewrite <- app_assoc|].
        intros k' [?|E%list_elem_of_singleton]%elem_of_app; [by apply Hl2|].
        by subst k'.
    + intros (l1 & l2 & H & Hl2).
      destruct l2 as [|x l2 _] using rev_ind.
      * apply app_inj_tail in H as [_ ->]. by left.
      * right. rewrite app_comm_cons, app_assoc in H.
        apply app_inj_tail in H as [-> ->]. split.
        -- exists l1, l2. split; [done|]. intros k' Hk'. apply Hl2.
           apply elem_of_app. by left.
        -- intros E. apply (Hl2 x); [|done]. apply elem_of_app. right. by left.
Qed.

(** X5. A list merged on top of another decides only the keys it names or
    cancels: a path that is neither in the overriding list nor the opposite
    of one of its keys is in the result exactly when it is in the merge of
    the lower list alone. *)
Theorem merge_override_frame (lower upper : list string) (s : string) :
  (∀ k, k ∈ upper → s ≠ k ∧ s ≠ opposite k) →
  s ∈ merge_schemas [lower; upper] ↔ s ∈ merge_schemas [lower].
Proof.
  intros Hs. rewrite !merge_schemas_fold. cbn [concat].
  rewrite !app_nil_r, foldl_app. apply fold_untouched.
  apply Forall_forall. intros k Hk [?|?]; by destruct (Hs k Hk).
Qed.

Lemma merge_override_frame_witness :
  (∀ k, k ∈ ["-age"] → "name" ≠ k ∧ "name" ≠ opposite k) ∧
  ("name" ∈ merge_schemas [["name"; "age"]; ["-age"]] ↔
   "name" ∈ merge_schemas [["name"; "age"]]).
Proof.
  assert (∀ k, k ∈ ["-age"] → "name" ≠ k ∧ "name" ≠ opposite k) as H.
  { intros k E%list_elem_of_singleton. subst k. by vm_compute. }
  split; [exact H|].
  apply (merge_override_frame ["name"; "age"] ["-age"] "name" H).
Defined.

(** ** The configuration error is out of reach *)

Lemma shift_negation_nonempty ts :
  Forall (λ t : list string, t ≠ []) ts →
  Forall (λ t : list string, t ≠ []) (shift_negation <$> ts).
Proof.
  induction 1 as [|t ts Ht _ IH]; [done|]. constructor; [|done].
  by destruct t.
Qed.

Lemma get_sub_schema_keeps_tails (keys : store) key :
  tails_nonempty keys →
  ∃ keys' sub, _get_sub_schema keys key = (keys', inr sub) ∧ tails_nonempty keys'.
Proof.
  intros Hwf. unfold _get_sub_schema.
  destruct (keys !! _negate key) as [ts|] eqn:E; [|by eauto].
  rewrite (negated_loop_nonempty ts) by (by apply (Hwf (_negate key))).
  eexists _, _. split; [done|]. intros h ts'. rewrite lookup_insert.
  case_decide; [|by apply Hwf]. intros [= <-].
  apply shift_negation_nonempty. by apply (Hwf (_negate key)).
Qed.

Section keeps_tails.
Context (rt : runtime) (kw : kwargs).
Context (rec : store → value → list string → option (result json)).
Context (Hrec : keeps_tails rec).

Lemma serialize_iter_loop_keeps_tails items : ∀ keys res keys' r,
  tails_nonempty keys →
  serialize_iter_loop rec items keys res = Some (keys', r) →
  tails_nonempty keys' ∧ ∀ msg, r ≠ inl (Exception msg).
Proof.
  induction items as [|v items IH]; intros keys res keys' r Hwf; simpl.
  - by intros [= <- <-].
  - destruct (rec keys v []) as [[keys1 [e|j]]|] eqn:E; [| |done].
    + destruct (Hrec _ _ _ _ _ Hwf E) as [Hwf1 He].
      destruct e as [m|m]; [by apply IH|]. by destruct (He m).
    + destruct (Hrec _ _ _ _ _ Hwf E) as [Hwf1 _]. by apply IH.
Qed.

Lemma fork_keeps_tails keys key v keys' r :
  tails_nonempty keys →
  _fork rec keys key v = Some (keys', r) →
  tails_nonempty keys' ∧ ∀ msg, r ≠ inl (Exception msg).
Proof.
  intros Hwf. unfold _fork. destruct (as_simple v); [by intros [= <- <-]|].
  destruct (get_sub_schema_keeps_tails keys key Hwf) as (keys1 & sub & -> & Hwf1).
  destruct (rec ∅ v sub) as [[keys2 r2]|] eqn:E; [|done].
  intros [= <- <-]. split; [done|].
  by destruct (Hrec _ _ _ _ _ tails_nonempty_empty E).
Qed.

Lemma serialize_keyed_loop_keeps_tails items : ∀ keys res keys' r,
  tails_nonempty keys →
  serialize_keyed_loop kw rec items keys res = Some (keys', r) →
  tails_nonempty keys' ∧ ∀ msg, r ≠ inl (Exception msg).
Proof.
  induction items as [|[k v] items IH]; intros keys res keys' r Hwf; simpl.
  - by intros [= <- <-].
  - destruct (_is_valid kw keys k); [|by apply IH].
    destruct (_fork rec keys k v) as [[keys1 [e|j]]|] eqn:E; [| |done].
    + intros [= <- <-]. by apply (fork_keeps_tails _ _ _ _ _ Hwf E).
    + destruct (fork_keeps_tails _ _ _ _ _ Hwf E) as [Hwf1 _]. by apply IH.
Qed.

Lemma call_body_keeps_tails : keeps_tails (call_body rt kw rec).
Proof.
  intros keys v sch keys' r Hwf. unfold call_body.
  destruct (as_simple (resolve v)); [by intros [= <- <-]|].
  destruct (as_datetime (resolve v)); [by intros [= <- <-]|].
  destruct (as_date (resolve v)); [by intros [= <- <-]|].
  destruct (as_iterable (resolve v)).
  { by apply serialize_iter_loop_keeps_tails. }
  destruct (as_mixin (resolve v)) as [[s0 attrs]|].
  { apply serialize_keyed_loop_keeps_tails.
    by apply tails_nonempty_set_schema. }
  destruct (as_dict (resolve v)); [|by intros [= <- <-]].
  apply serialize_keyed_loop_keeps_tails. by apply tails_nonempty_set_schema.
Qed.

End keeps_tails.

Lemma call_keeps_tails rt kw n : keeps_tails (call n rt kw).
Proof.
  induction n as [|n IH]; [by intros ? ? ? ? ? ?|].
  by apply call_body_keeps_tails.
Qed.

(** X6. A serializer called on a fresh instance never raises the
    configuration error of [_get_sub_schema]: whatever the value and the
    schema, the call returns a value or raises [IsNotSerializable], and the
    store it leaves holds no empty tail. *)
Theorem Serializer_never_raises_Exception rt kw (v : value) (schema : list string) :
  ∃ keys',
    tails_nonempty keys' ∧
    ((∃ j, Serializer rt kw v schema = Some (keys', inr j)) ∨
     (∃ msg, Serializer rt kw v schema
             = Some (keys', inl (IsNotSerializable msg)))).
Proof.
  destruct (Serializer_total rt kw v schema) as [[keys' r] H].
  destruct (call_keeps_tails rt kw _ _ _ _ _ _ tails_nonempty_empty H)
    as [Hwf He].
  exists keys'. split; [done|]. rewrite H.
  destruct r as [[m|m]|j]; [right|by destruct (He m)|left]; by eauto.
Qed.

Lemma serialize_iter_loop_returns_list rec items : ∀ keys res keys' j,
  serialize_iter_loop rec items keys res = Some (keys', inr j) →
  ∃ out, j = JList out ∧ length out ≤ length res + length items.
Proof.
  induction items as [|v items IH]; intros keys res keys' j; simpl.
  - intros [= _ <-]. exists res. split; [done|lia].
  - destruct (rec keys v []) as [[keys1 [[m|m]|j1]]|]; try done.
    + intros (out & -> & Hlen)%IH. exists out. split; [done|lia].
    + intros (out & -> & Hlen)%IH. exists out. split; [done|].
      rewrite length_app in Hlen. simpl in Hlen. lia.
Qed.

(** X7. Serializing an iterable never fails: a fresh serializer called on
    a list returns a list, whatever its elements are, with at most one
    entry for each element. *)
Theorem Serializer_list_returns_list rt kw (items : list value)
    (schema : list string) :
  ∃ keys' out,
    Serializer rt kw (VList items) schema = Some (keys', inr (JList out)) ∧
    length out ≤ length items.
Proof.
  destruct (Serializer_total rt kw (VList items) schema) as [[keys' r] H].
  destruct (call_keeps_tails rt kw _ _ _ _ _ _ tails_nonempty_empty H)
    as [_ He].
  rewrite H. unfold Serializer in H. simpl in H. unfold serialize_iter in H.
  destruct r as [[m|m]|j].
  - by apply serialize_iter_loop_catches in H.
  - by destruct (He m).
  - apply serialize_iter_loop_returns_list in H as (out & -> & Hlen).
    by exists keys', out.
Qed.

(** ** What a call does not look at *)

(** X8. The schema handed to a call is looked at only when the value is a
    model: for every other value (simple, date, iterable, dict, anything
    not serializable) the call does the same whatever the schema.  In
    particular the schema given for a list never reaches the models in
    the list. *)
Theorem schema_ignored_unless_model rt kw n (keys : store) (v : value)
    (schema schema' : list string) :
  as_mixin (resolve v) = None →
  call n rt kw keys v schema = call n rt kw keys v schema'.
Proof.
  intros Hv. destruct n as [|n]; [done|].
  change (call_body rt kw (call n rt kw) keys v schema
          = call_body rt kw (call n rt kw) keys v schema').
  unfold call_body. by destruct (resolve v).
Qed.

Lemma schema_ignored_unless_model_witness :
  as_mixin (resolve (VList [VModel [] [("a", VSimple (PInt 1))]])) = None ∧
  call 3 sample_runtime default_kwargs ∅
    (VList [VModel [] [("a", VSimple (PInt 1))]]) ["-a"]
  = call 3 sample_runtime default_kwargs ∅
    (VList [VModel [] [("a", VSimple (PInt 1))]]) [].
Proof.
  split; [reflexivity|].
  apply (schema_ignored_unless_model sample_runtime default_kwargs 3 ∅
           (VList [VModel [] [("a", VSimple (PInt 1))]]) ["-a"] []).
  reflexivity.
Defined.

Section ext.
Context (kw : kwargs).
Context (rec rec' : store → value → list string → option (result json)).
Context (Hrec : ∀ keys v sch, rec keys v sch = rec' keys v sch).

Lemma serialize_iter_loop_ext items : ∀ keys res,
  serialize_iter_loop rec items keys res
  = serialize_iter_loop rec' items keys res.
Proof.
  induction items as [|v items IH]; intros keys res; [done|].
  simpl. rewrite Hrec. destruct (rec' keys v []) as [[keys1 [[m|m]|j]]|]; auto.
Qed.

Lemma fork_ext keys key v : _fork rec keys key v = _fork rec' keys key v.
Proof.
  unfold _fork. destruct (as_simple v); [done|].
  destruct (_get_sub_schema keys key) as [keys1 [e|sub]]; [done|].
  by rewrite Hrec.
Qed.

Lemma serialize_keyed_loop_ext items : ∀ keys res,
  serialize_keyed_loop kw rec items keys res
  = serialize_keyed_loop kw rec' items keys res.
Proof.
  induction items as [|[k v] items IH]; intros keys res; [done|].
  simpl. rewrite fork_ext.
  destruct (_is_valid kw keys k); [|done].
  destruct (_fork rec' keys k v) as [[keys1 [e|j]]|]; auto.
Qed.

End ext.

(** X9. With [to_user_tz] off (the default) the helpers of
    [lib.timezones] are never consulted: two runtimes that agree on
    [strftime] and on the iteration order of sets give the same answer on
    every value, however their [to_local_time], [format_date] and
    [format_datetime] differ. *)
Theorem timezone_helpers_unused_by_default rt rt' kw n (keys : store)
    (v : value) (schema : list string) :
  to_user_tz kw = false →
  same_strftime rt rt' →
  call n rt kw keys v schema = call n rt' kw keys v schema.
Proof.
  intros Htz (Hdt & Hd & Hset). revert keys v schema.
  induction n as [|n IH]; intros keys v schema; [done|].
  change (call_body rt kw (call n rt kw) keys v schema
          = call_body rt' kw (call n rt' kw) keys v schema).
  unfold call_body, serialize_datetime, serialize_date, serialize_iter,
    serialize_model, serialize_dict.
  rewrite Htz.
  destruct (as_simple (resolve v)); [done|].
  destruct (as_datetime (resolve v)); [by rewrite Hdt|].
  destruct (as_date (resolve v)); [by rewrite Hd|].
  destruct (as_iterable (resolve v)); [by apply serialize_iter_loop_ext|].
  destruct (as_mixin (resolve v)) as [[s0 attrs]|].
  { cbv zeta. rewrite Hset. by apply serialize_keyed_loop_ext. }
  destruct (as_dict (resolve v)); [by apply serialize_keyed_loop_ext|done].
Qed.

Lemma timezone_helpers_unused_by_default_witness :
  to_user_tz default_kwargs = false ∧
  call 2 sample_runtime default_kwargs ∅
    (VList [VDatetime (Datetime (Date 2020 1 2) 3 4 5 None)]) []
  = call 2 (Runtime (λ _ fmt, fmt) (λ _ fmt, fmt) (λ d, d)
              (λ _ _, EmptyString) (λ _ _, EmptyString) elements)
      default_kwargs ∅
      (VList [VDatetime (Datetime (Date 2020 1 2) 3 4 5 None)]) [].
Proof.
  split; [reflexivity|].
  apply (timezone_helpers_unused_by_default sample_runtime
           (Runtime (λ _ fmt, fmt) (λ _ fmt, fmt) (λ d, d)
              (λ _ _, EmptyString) (λ _ _, EmptyString) elements)
           default_kwargs 2 ∅
           (VList [VDatetime (Datetime (Date 2020 1 2) 3 4 5 None)]) []).
  - reflexivity.
  - repeat split.
Defined.

(** ** The fields of a model do not interfere *)

Lemma is_valid_agree kw (keys1 keys2 : store) k :
  keys1 !! _negate k = keys2 !! _negate k →
  keys1 !! _WILDCARD = keys2 !! _WILDCARD →
  keys1 !! k = keys2 !! k →
  _is_valid kw keys1 k = _is_valid kw keys2 k.
Proof. unfold _is_valid. by intros -> -> ->. Qed.

Lemma fork_agree rec (keys1 keys2 : store) k v :
  keys1 !! k = keys2 !! k →
  keys1 !! _negate k = keys2 !! _negate k →
  snd <$> _fork rec keys1 k v = snd <$> _fork rec keys2 k v.
Proof.
  intros Hk Hn. unfold _fork. destruct (as_simple v); [done|].
  unfold _get_sub_schema. rewrite Hk, Hn.
  destruct (keys2 !! _negate k) as [ts|].
  - destruct (negated_loop ts) as [ts' []]; [done|].
    by destruct (rec ∅ v _) as [[? ?]|].
  - by destruct (rec ∅ v _) as [[? ?]|].
Qed.

Lemma dict_set_fresh res k j :
  k ∉ res.*1 → dict_set res k j = res ++ [(k, j)].
Proof.
  induction res as [|[k' v'] res IH]; [done|].
  rewrite fmap_cons, not_elem_of_cons. intros [Hne Hk]. simpl in *.
  apply not_eq_sym, String.eqb_neq in Hne. rewrite Hne. by rewrite IH.
Qed.

Lemma serialize_keyed_loop_fields kw rec (keys0 : store) items : ∀ keys res,
  NoDup items.*1 →
  (∀ kv, kv ∈ items → _is_negation kv.1 = false) →
  (∀ kv, kv ∈ items → kv.1 ∉ res.*1) →
  agree_for items keys keys0 →
  snd <$> serialize_keyed_loop kw rec items keys res =
    match fields_spec kw rec keys0 items with
    | Some (inr d) => Some (inr (JDict (res ++ d)))
    | Some (inl e) => Some (inl e)
    | None => None
    end.
Proof.
  induction items as [|[k v] items IH]; intros keys res Hnd Hplain Hres Hag.
  { simpl. by rewrite app_nil_r. }
  rewrite fmap_cons in Hnd. apply NoDup_cons in Hnd as [Hk Hnd].
  simpl in Hk. destruct Hag as [Hw Hag].
  destruct (Hag (k, v) ltac:(left)) as [Hkk Hkn]. simpl in Hkk, Hkn.
  assert (∀ kv, kv ∈ items → _is_negation kv.1 = false) as Hplain'.
  { intros; apply Hplain. by right. }
  simpl. rewrite (is_valid_agree kw keys keys0 k Hkn Hw Hkk).
  destruct (_is_valid kw keys0 k).
  2:{ apply IH; try done.
      - intros; apply Hres. by right.
      - split; [done|]. intros; apply Hag. by right. }
  pose proof (fork_agree rec keys keys0 k v Hkk Hkn) as Hf.
  destruct (_fork rec keys k v) as [[keys1 r]|] eqn:E1;
    destruct (_fork rec keys0 k v) as [[keys1' r']|] eqn:E0; try done.
  injection Hf as <-. destruct r as [e|j]; [done|].
  rewrite dict_set_fresh by (apply (Hres (k, v)); by left).
  rewrite IH; try done.
  - destruct (fields_spec kw rec keys0 items) as [[e|d]|]; try done.
    by rewrite <- app_assoc.
  - intros kv Hkv. rewrite fmap_app. simpl. intros [H|H]%elem_of_app.
    + revert H. apply Hres. by right.
    + apply list_elem_of_singleton in H. apply Hk. rewrite <- H.
      by apply list_elem_of_fmap_2.
  - assert (∀ h, h ≠ _negate k → keys1 !! h = keys !! h) as Hfr.
    { intros h Hh. by eapply fork_frame. }
    split.
    + rewrite Hfr; [done|]. by rewrite negate_cons.
    + intros kv Hkv. destruct (Hag kv ltac:(by right)) as [H1 H2].
      rewrite !Hfr; [done| |].
      * intros E%negate_inj. apply Hk. rewrite <- E.
        by apply list_elem_of_fmap_2.
      * intros E. pose proof (Hplain' kv Hkv) as Hp.
        rewrite E in Hp. by rewrite is_negation_negate in Hp.
Qed.

Lemma fields_spec_fresh rt kw (keys0 : store) n items :
  (∀ kv, kv ∈ items → depth kv.2 < n) →
  fields_spec kw (call n rt kw) keys0 items
  = fields_spec kw (fresh rt kw) keys0 items.
Proof.
  induction items as [|[k v] items IH]; intros Hd; [done|].
  simpl. rewrite IH by (intros; apply Hd; by right).
  assert (_fork (call n rt kw) keys0 k v = _fork (fresh rt kw) keys0 k v) as ->;
    [|done].
  unfold _fork, fresh. destruct (as_simple v); [done|].
  destruct (_get_sub_schema keys0 k) as [keys1 [e|sub]]; [done|].
  rewrite (Serializer_call rt kw n v sub); [done|].
  apply (Hd (k, v)). by left.
Qed.

Lemma Serializer_model_fields rt kw (sch0 : list string)
    (attrs : list (string * value)) (schema : list string) :
  NoDup attrs.*1 →
  (∀ kv, kv ∈ attrs → _is_negation kv.1 = false) →
  snd <$> Serializer rt kw (VModel sch0 attrs) schema =
    match fields_spec kw (fresh rt kw)
            (_set_schema ∅ (set_iter rt (merge_schemas [sch0; schema]))) attrs
    with
    | Some (inr d) => Some (inr (JDict d))
    | Some (inl e) => Some (inl e)
    | None => None
    end.
Proof.
  intros Hnd Hplain. unfold Serializer. cbn [depth].
  set (n := foldr (λ kv n, depth kv.2 `max` n) 0 attrs).
  set (keys0 := _set_schema ∅ (set_iter rt (merge_schemas [sch0; schema]))
         : store).
  change (call (S (S n)) rt kw ∅ (VModel sch0 attrs) schema)
    with (serialize_keyed_loop kw (call (S n) rt kw) attrs keys0 []).
  rewrite (serialize_keyed_loop_fields kw _ keys0); try done.
  - rewrite fields_spec_fresh; [done|].
    intros kv Hkv. apply depth_attr in Hkv. fold n in Hkv. lia.
  - intros kv _. by intros ?%elem_of_nil.
Qed.

(** X10. The fields of a model do not interfere.  When the attribute names
    are distinct and none starts with the negation mark, serializing a
    model gives what deciding and forking every attribute against the
    store as first loaded gives: the entries of the visible attributes in
    the order of the model, each the answer of a fresh serializer on the
    attribute's value under the attribute's sub-schema, or the exception
    of the first fork that raises.  What [_get_sub_schema] rewrites in
    the store for one attribute changes nothing for the others. *)
Theorem model_fields_independent rt kw (sch0 : list string)
    (attrs : list (string * value)) (schema : list string) :
  NoDup attrs.*1 →
  (∀ kv, kv ∈ attrs → _is_negation kv.1 = false) →
  snd <$> Serializer rt kw (VModel sch0 attrs) schema =
    match fields_spec kw (fresh rt kw)
            (_set_schema ∅ (set_iter rt (merge_schemas [sch0; schema]))) attrs
    with
    | Some (inr d) => Some (inr (JDict d))
    | Some (inl e) => Some (inl e)
    | None => None
    end.
Proof. apply Serializer_model_fields. Qed.

Lemma model_fields_independent_witness :
  snd <$> Serializer sample_runtime default_kwargs
    (VModel ["-a.b"; "-c.d"]
       [("a", VModel [] [("b", VSimple (PInt 1))]);
        ("c", VModel [] [("d", VSimple (PInt 2)); ("e", VSimple (PInt 3))])])
    [] =
    match fields_spec default_kwargs (fresh sample_runtime default_kwargs)
            (_set_schema ∅ (set_iter sample_runtime
                              (merge_schemas [["-a.b"; "-c.d"]; []])))
            [("a", VModel [] [("b", VSimple (PInt 1))]);
             ("c", VModel [] [("d", VSimple (PInt 2)); ("e", VSimple (PInt 3))])]
    with
    | Some (inr d) => Some (inr (JDict d))
    | Some (inl e) => Some (inl e)
    | None => None
    end.
Proof.
  apply (model_fields_independent sample_runtime default_kwargs).
  - by vm_compute; repeat constructor; set_solver.
  - intros kv Hkv. repeat (apply elem_of_cons in Hkv as [->|Hkv]; [done|]).
    by apply elem_of_nil in Hkv.
Defined.

Lemma fields_spec_keys kw rec (keys0 : store) items : ∀ d,
  fields_spec kw rec keys0 items = Some (inr d) →
  d.*1 = filter (λ k, _is_valid kw keys0 k = true) items.*1.
Proof.
  induction items as [|[k v] items IH]; intros d; simpl.
  - by intros [= <-].
  - rewrite filter_cons. simpl. destruct (_is_valid kw keys0 k).
    + rewrite decide_True by done.
      destruct (_fork rec keys0 k v) as [[keys1 [e|j]]|]; [done| |done].
      destruct (fields_spec kw rec keys0 items) as [[e|d']|]; try done.
      intros [= <-]. rewrite fmap_cons. simpl. f_equal. by apply IH.
    + rewrite decide_False by done. apply IH.
Qed.

(** X11. The keys of a serialized model are the names of its visible
    attributes, verbatim and in the order of the model: an attribute is
    in the result exactly when [_is_valid] lets it through the store as
    first loaded (names distinct, none starting with the negation
    mark). *)
Theorem model_result_keys rt kw (sch0 : list string)
    (attrs : list (string * value)) (schema : list string) keys' d :
  NoDup attrs.*1 →
  (∀ kv, kv ∈ attrs → _is_negation kv.1 = false) →
  Serializer rt kw (VModel sch0 attrs) schema = Some (keys', inr (JDict d)) →
  d.*1 = filter
           (λ k, _is_valid kw
                   (_set_schema ∅ (set_iter rt (merge_schemas [sch0; schema])))
                   k = true)
           attrs.*1.
Proof.
  intros Hnd Hplain Hser.
  pose proof (Serializer_model_fields rt kw sch0 attrs schema Hnd Hplain) as H.
  rewrite Hser in H. simpl in H.
  destruct (fields_spec _ _ _ attrs) as [[e|d']|] eqn:E; try done.
  injection H as ->. by apply fields_spec_keys in E.
Qed.

Lemma model_result_keys_witness :
  [("name", JSimple (PStr "Ann")); ("tags", JList [])].*1 =
  filter
    (λ k, _is_valid default_kwargs
            (_set_schema ∅ (set_iter sample_runtime (merge_schemas [[]; ["-age"]])))
            k = true)
    [("name", VSimple (PStr "Ann")); ("age", VSimple (PInt 30));
     ("_secret", VSimple (PStr "s")); ("tags", VList [])].*1.
Proof.
  apply (model_result_keys sample_runtime default_kwargs [] 
           [("name", VSimple (PStr "Ann")); ("age", VSimple (PInt 30));
            ("_secret", VSimple (PStr "s")); ("tags", VList [])]
           ["-age"] {["-age" := []]}).
  - by vm_compute; repeat constructor; set_solver.
  - intros kv Hkv. repeat (apply elem_of_cons in Hkv as [->|Hkv]; [done|]).
    by apply elem_of_nil in Hkv.
  - vm_compute. reflexivity.
Defined.

(** ** [to_dict] without a schema *)

Lemma set_iter_empty rt : set_iter_ok rt → set_iter rt ∅ = [].
Proof.
  intros Hrt. apply Permutation_nil_r. by rewrite (Hrt ∅), elements_empty.
Qed.

Lemma merge_schemas_empty : merge_schemas [[]; []] = ∅.
Proof. reflexivity. Qed.

(** X12. Strict mode without a schema gives the empty dict: when neither
    the model nor the caller names a path and [is_greedy] is off, [to_dict]
    returns {} whatever the attributes hold, and no attribute is looked
    at (a value that is not serializable does not make it fail). *)
Theorem to_dict_strict_without_schema rt (attrs : list (string * value))
    (date_format datetime_format : option string) (to_user_tz : bool) :
  set_iter_ok rt →
  to_dict rt [] attrs [] false date_format datetime_format to_user_tz
  = Some (∅, inr (JDict [])).
Proof.
  intros Hrt. unfold to_dict, Serializer. cbn [depth].
  set (kw := Kwargs (Some false) date_format datetime_format (Some to_user_tz)).
  set (n := foldr (λ kv n, depth kv.2 `max` n) 0 attrs).
  change (call (S (S n)) rt kw ∅ (VModel [] attrs) [])
    with (serialize_keyed_loop kw (call (S n) rt kw) attrs
            (_set_schema ∅ (set_iter rt (merge_schemas [[]; []]))) []).
  rewrite merge_schemas_empty, (set_iter_empty rt Hrt).
  change (_set_schema ∅ []) with (∅ : store).
  generalize (call (S n) rt kw). clear n. intros rec.
  induction attrs as [|[k v] attrs IH]; [done|]. simpl.
  unfold _is_valid. by rewrite !lookup_empty.
Qed.

Lemma to_dict_strict_without_schema_witness :
  to_dict sample_runtime [] [("a", VObject); ("b", VSimple (PInt 1))] []
    false None None false
  = Some (∅, inr (JDict [])).
Proof.
  apply (to_dict_strict_without_schema sample_runtime
           [("a", VObject); ("b", VSimple (PInt 1))] None None false).
  intros X. reflexivity.
Defined.

Lemma flat_loop kw rec (rows : list (string * simple)) : ∀ res,
  is_greedy kw = true →
  NoDup rows.*1 →
  (∀ kp, kp ∈ rows → kp.1 ∉ res.*1) →
  serialize_keyed_loop kw rec (flat_attrs rows) ∅ res
  = Some (∅, inr (JDict (res ++ flat_public rows))).
Proof.
  intros res Hg. revert res.
  induction rows as [|[k p] rows IH]; intros res Hnd Hres.
  { simpl. by rewrite app_nil_r. }
  rewrite fmap_cons in Hnd. apply NoDup_cons in Hnd as [Hk Hnd]. simpl in Hk.
  unfold flat_attrs, flat_public in *. rewrite fmap_cons, filter_cons.
  cbn [serialize_keyed_loop fst snd].
  assert (_is_valid kw ∅ k = public k) as ->.
  { unfold _is_valid, public. by rewrite !lookup_empty, Hg. }
  destruct (public k) eqn:Ep.
  - rewrite decide_True by done. cbn [_fork as_simple].
    rewrite dict_set_fresh by (apply (Hres (k, p)); by left).
    rewrite IH; [by rewrite <- app_assoc|done|].
    intros kp Hkp. rewrite fmap_app. simpl. intros [H|H]%elem_of_app.
    + revert H. apply Hres. by right.
    + apply list_elem_of_singleton in H. apply Hk. rewrite <- H.
      by apply list_elem_of_fmap_2.
  - rewrite decide_False by done. apply IH; [done|].
    intros; apply Hres. by right.
Qed.

(** X13. A flat record comes back as it is.  For a model whose attributes
    all hold simple values, with distinct names and no schema on either
    side, [to_dict] with its default [is_greedy] returns the attributes
    without a leading underscore, in the order of the model, each with its
    value unchanged, and nothing else. *)
Theorem to_dict_flat_record rt (rows : list (string * simple))
    (date_format datetime_format : option string) (to_user_tz : bool) :
  set_iter_ok rt →
  NoDup rows.*1 →
  to_dict rt [] (flat_attrs rows) [] true date_format datetime_format to_user_tz
  = Some (∅, inr (JDict (flat_public rows))).
Proof.
  intros Hrt Hnd. unfold to_dict, Serializer. cbn [depth].
  set (kw := Kwargs (Some true) date_format datetime_format (Some to_user_tz)).
  set (n := foldr (λ kv n, depth kv.2 `max` n) 0 (flat_attrs rows)).
  change (call (S (S n)) rt kw ∅ (VModel [] (flat_attrs rows)) [])
    with (serialize_keyed_loop kw (call (S n) rt kw) (flat_attrs rows)
            (_set_schema ∅ (set_iter rt (merge_schemas [[]; []]))) []).
  rewrite merge_schemas_empty, (set_iter_empty rt Hrt).
  change (_set_schema ∅ []) with (∅ : store).
  rewrite flat_loop; try done. by intros kp _ ?%elem_of_nil.
Qed.

Lemma to_dict_flat_record_witness :
  to_dict sample_runtime []
    (flat_attrs [("name", PStr "Ann"); ("age", PInt 30); ("_secret", PStr "s")])
    [] true None None false
  = Some (∅, inr (JDict (flat_public
            [("name", PStr "Ann"); ("age", PInt 30); ("_secret", PStr "s")]))).
Proof.
  apply (to_dict_flat_record sample_runtime
           [("name", PStr "Ann"); ("age", PInt 30); ("_secret", PStr "s")]
           None None false).
  - intros X. reflexivity.
  - by vm_compute; repeat constructor; set_solver.
Defined.

(** ** What visibility depends on *)

Lemma is_valid_shape kw (keys1 keys2 : store) k :
  (keys1 !! _negate k = Some [] ↔ keys2 !! _negate k = Some []) →
  (is_Some (keys1 !! _WILDCARD) ↔ is_Some (keys2 !! _WILDCARD)) →
  (is_Some (keys1 !! k) ↔ is_Some (keys2 !! k)) →
  _is_valid kw keys1 k = _is_valid kw keys2 k.
Proof.
  intros Hn Hw Hk. unfold _is_valid.
  rewrite (bool_decide_ext _ _ Hw), (bool_decide_ext _ _ Hk).
  destruct (keys1 !! _negate k) as [[|t1 ts1]|],
           (keys2 !! _negate k) as [[|t2 ts2]|]; try done.
  all: by (destruct Hn as [H1 H2]; first [specialize (H1 eq_refl)|specialize (H2 eq_refl)]).
Qed.







Lemma negated_loop_nil ts : (negated_loop ts).1 = [] ↔ ts = [].
Proof.
  destruct ts as [|[|x t] ts]; simpl; [done|done|].
  by destruct (negated_loop ts).
Qed.

(** X15. What [_get_sub_schema] rewrites in the store never changes
    visibility: after any call of it, on any store and for any key,
    [_is_valid] answers for every field as it did before. *)
Theorem get_sub_schema_keeps_visibility kw (keys : store) (key k : string) :
  _is_valid kw (_get_sub_schema keys key).1 k = _is_valid kw keys k.
Proof.
  unfold _get_sub_schema.
  destruct (keys !! _negate key) as [ts|] eqn:E; [|done].
  pose proof (negated_loop_nil ts) as Hnil.
  destruct (negated_loop ts) as [ts' raised]. simpl in Hnil.
  assert (∀ h, is_Some ((<[_negate key := ts']> keys) !! h)
               ↔ is_Some (keys !! h)) as Hsome.
  { intros h. rewrite lookup_insert. case_decide as Hh; [|done].
    subst h. rewrite E. split; by eexists. }
  assert (_is_valid kw (<[_negate key := ts']> keys) k = _is_valid kw keys k);
    [|by destruct raised].
  apply is_valid_shape; [|apply Hsome..].
  rewrite lookup_insert. case_decide as Hh; [|done].
  rewrite <- Hh, E. split; intros [= H]; f_equal; by apply Hnil.
Qed.

(** ** When a call returns, and when it leaves the store alone *)

Lemma well_formed_resolve v :
  well_formed v = true →
  well_formed (resolve v) = true ∧ unrecognised (resolve v) = false.
Proof. destruct v as [| | | | | |[]|]; by simpl. Qed.

Section returns.
Context (rt : runtime) (kw : kwargs).
Context (rec : store → value → list string → option (result json)).

Lemma serialize_iter_loop_returns items : ∀ keys res,
  keeps_tails rec →
  tails_nonempty keys →
  (∀ x keys sch, x ∈ items → is_Some (rec keys x sch)) →
  ∃ keys' out, serialize_iter_loop rec items keys res
               = Some (keys', inr (JList out)).
Proof.
  intros keys res Hrec Hwf Htot.
  destruct (serialize_iter_loop_total rec items keys res Htot) as [[keys' r] H].
  destruct (serialize_iter_loop_keeps_tails rec Hrec _ _ _ _ _ Hwf H) as [_ He].
  destruct r as [[m|m]|j].
  - by apply serialize_iter_loop_catches in H.
  - by destruct (He m).
  - pose proof H as (out & -> & _)%serialize_iter_loop_returns_list. by eauto.
Qed.

Lemma serialize_keyed_loop_returns items : ∀ keys res,
  tails_nonempty keys →
  (∀ kv sch, kv ∈ items → as_simple kv.2 = None →
     ∃ keys' j, rec ∅ kv.2 sch = Some (keys', inr j)) →
  ∃ keys' d, serialize_keyed_loop kw rec items keys res
             = Some (keys', inr (JDict d)).
Proof.
  induction items as [|[k v] items IH]; intros keys res Hwf Hrec.
  { by eexists _, _. }
  assert (∀ kv sch, kv ∈ items → as_simple kv.2 = None →
            ∃ keys' j, rec ∅ kv.2 sch = Some (keys', inr j)) as Hrest.
  { intros; apply Hrec; [by right|done]. }
  simpl. destruct (_is_valid kw keys k); [|by apply IH].
  unfold _fork. destruct (as_simple v) eqn:Ev; [by apply IH|].
  destruct (get_sub_schema_keeps_tails keys k Hwf) as (keys1 & sub & -> & Hwf1).
  destruct (Hrec (k, v) sub ltac:(left) Ev) as (keys2 & j & Hr).
  simpl in Hr. rewrite Hr. by apply IH.
Qed.

End returns.

Lemma forallb_attr (f : value → bool) (items : list (string * value)) kv :
  forallb (λ kv, f kv.2) items = true → kv ∈ items → f kv.2 = true.
Proof.
  intros H Hkv. rewrite forallb_forall in H. apply H.
  by apply list_elem_of_In.
Qed.

Lemma call_returns rt kw n : ∀ (keys : store) v sch,
  tails_nonempty keys → depth v < n → well_formed v = true →
  ∃ keys' j, call n rt kw keys v sch = Some (keys', inr j).
Proof.
  induction n as [|n IH]; intros keys v sch Hwf Hd Hv; [lia|].
  rewrite <- depth_resolve in Hd.
  apply well_formed_resolve in Hv as [Hv Hu].
  change (∃ keys' j, call_body rt kw (call n rt kw) keys v sch
                     = Some (keys', inr j)).
  unfold call_body.
  destruct (resolve v) as [p|d|d|items|items|s0 attrs|r|];
    try done; try (by eexists _, _);
    cbn [as_simple as_datetime as_date as_iterable as_mixin as_dict];
    unfold serialize_iter, serialize_model.
  - destruct (serialize_iter_loop_returns (call n rt kw) items keys [])
      as (keys' & out & ->); [apply call_keeps_tails|done| |by eauto].
    intros x keys1 sch1 Hx. apply call_total.
    simpl in Hd. apply depth_elem in Hx. lia.
  - destruct (serialize_iter_loop_returns (call n rt kw)
                ((λ kv, VSimple (PStr kv.1)) <$> items) keys [])
      as (keys' & out & ->); [apply call_keeps_tails|done| |by eauto].
    intros x keys1 sch1 Hx. apply call_total.
    apply list_elem_of_fmap in Hx as (kv & -> & _). simpl in *. lia.
  - destruct (serialize_keyed_loop_returns kw (call n rt kw) attrs
                (_set_schema keys (set_iter rt (merge_schemas [s0; sch]))) [])
      as (keys' & d & ->); [by apply tails_nonempty_set_schema| |by eauto].
    intros kv sub Hkv _. apply IH; [apply tails_nonempty_empty| |].
    + simpl in Hd. apply depth_attr in Hkv. lia.
    + simpl in Hv. by eapply (forallb_attr well_formed).
Qed.

(** X16. Serializing succeeds on every tree of simple values, dates,
    iterables, dicts and models: when no attribute, at any depth below the
    models, holds a value without a branch in [__call__], a fresh
    serializer returns a value whatever the schemas are.  What a list holds
    is free. *)
Theorem Serializer_returns_on_well_formed rt kw (v : value)
    (schema : list string) :
  well_formed v = true →
  ∃ keys' j, Serializer rt kw v schema = Some (keys', inr j).
Proof.
  intros Hv. apply call_returns; [apply tails_nonempty_empty|lia|done].
Qed.

Lemma Serializer_returns_on_well_formed_witness :
  well_formed
    (VModel ["-a.b"] [("a", VModel [] [("b", VList [VObject])]);
                      ("c", VCallable (VSimple PNone))]) = true ∧
  ∃ keys' j,
    Serializer sample_runtime default_kwargs
      (VModel ["-a.b"] [("a", VModel [] [("b", VList [VObject])]);
                        ("c", VCallable (VSimple PNone))]) ["x.y"]
    = Some (keys', inr j).
Proof.
  split; [reflexivity|].
  apply (Serializer_returns_on_well_formed sample_runtime default_kwargs).
  reflexivity.
Defined.

Lemma has_model_resolve v :
  has_model v = false →
  as_mixin (resolve v) = None ∧
  ∀ items, resolve v = VList items → existsb has_model items = false.
Proof.
  destruct v as [| | |items| | |[| | |items| | | |]|]; simpl; intros H;
    (split; [done|]); intros items' [= <-]; done.
Qed.

Lemma serialize_iter_loop_store rec items : ∀ (keys : store) res keys' r,
  (∀ x keys sch keys' r, x ∈ items →
     rec keys x sch = Some (keys', r) → keys' = keys) →
  serialize_iter_loop rec items keys res = Some (keys', r) → keys' = keys.
Proof.
  induction items as [|v items IH]; intros keys res keys' r Hrec; simpl.
  - by intros [= <- _].
  - assert (∀ x keys sch keys' r, x ∈ items →
              rec keys x sch = Some (keys', r) → keys' = keys) as Hrest.
    { intros x ? ? ? ? Hx. apply Hrec. by right. }
    destruct (rec keys v []) as [[keys1 [[m|m]|j]]|] eqn:E; [| | |done].
    + apply Hrec in E as ->; [|by left]. by apply IH.
    + apply Hrec in E as ->; [|by left]. by intros [= <- _].
    + apply Hrec in E as ->; [|by left]. by apply IH.
Qed.

Lemma call_store_without_model rt kw n : ∀ (keys : store) v sch keys' r,
  has_model v = false →
  call n rt kw keys v sch = Some (keys', r) → keys' = keys.
Proof.
  induction n as [|n IH]; intros keys v sch keys' r Hv; [done|].
  apply has_model_resolve in Hv as [Hm Hl].
  change (call_body rt kw (call n rt kw) keys v sch = Some (keys', r)
          → keys' = keys).
  unfold call_body.
  destruct (resolve v) as [p|d|d|items|items|s0 attrs|x|];
    try done; try (by intros [= <- _]);
    cbn [as_simple as_datetime as_date as_iterable as_mixin as_dict];
    unfold serialize_iter.
  - apply serialize_iter_loop_store. intros x keys1 sch1 keys2 r2 Hx.
    apply IH. specialize (Hl items eq_refl).
    apply not_true_is_false. intros Hx'.
    assert (existsb has_model items = true); [|congruence].
    apply existsb_exists. exists x. by rewrite <- list_elem_of_In.
  - apply serialize_iter_loop_store. intros x keys1 sch1 keys2 r2 Hx.
    apply IH. by apply list_elem_of_fmap in Hx as (kv & -> & _).
Qed.

(** X17. The store is written only when the instance meets a model: a
    call on a value that is not a model, does not return one when called
    and holds none in its lists (at any depth of lists) leaves the store
    exactly as it found it, whatever schema it was given. *)
Theorem store_untouched_without_model rt kw n (keys : store) (v : value)
    (schema : list string) keys' r :
  has_model v = false →
  call n rt kw keys v schema = Some (keys', r) →
  keys' = keys.
Proof. apply call_store_without_model. Qed.

Lemma store_untouched_without_model_witness :
  has_model (VList [VDict [("a", VModel ["x"] [])]; VList [VObject];
                    VSimple (PInt 1)]) = false ∧
  ({["-a" := []]} : store) = {["-a" := []]}.
Proof.
  split; [reflexivity|].
  apply (store_untouched_without_model sample_runtime default_kwargs 3
           {["-a" := []]}
           (VList [VDict [("a", VModel ["x"] [])]; VList [VObject];
                   VSimple (PInt 1)])
           ["b.c"] {["-a" := []]}
           (inr (JList [JList [JSimple (PStr "a")]; JList [];
                        JSimple (PInt 1)]))).
  - reflexivity.
  - vm_compute. reflexivity.
Defined.

(** ** What the keyword arguments and the runtime are read for *)

(** X18. With [to_user_tz] on, [strftime] is never consulted: two runtimes
    that agree on [to_local_time], [format_datetime], [format_date] and on
    the iteration order of sets give the same answer on every value. *)
Theorem strftime_unused_with_user_tz rt rt' kw n (keys : store)
    (v : value) (schema : list string) :
  to_user_tz kw = true →
  same_timezones rt rt' →
  call n rt kw keys v schema = call n rt' kw keys v schema.
Proof.
  intros Htz (Hloc & Hdt & Hd & Hset). revert keys v schema.
  induction n as [|n IH]; intros keys v schema; [done|].
  change (call_body rt kw (call n rt kw) keys v schema
          = call_body rt' kw (call n rt' kw) keys v schema).
  unfold call_body, serialize_datetime, serialize_date, serialize_iter,
    serialize_model, serialize_dict.
  rewrite Htz.
  destruct (as_simple (resolve v)); [done|].
  destruct (as_datetime (resolve v)); [by rewrite Hloc, Hdt|].
  destruct (as_date (resolve v)); [by rewrite Hd|].
  destruct (as_iterable (resolve v)); [by apply serialize_iter_loop_ext|].
  destruct (as_mixin (resolve v)) as [[s0 attrs]|].
  { cbv zeta. rewrite Hset. by apply serialize_keyed_loop_ext. }
  destruct (as_dict (resolve v)); [by apply serialize_keyed_loop_ext|done].
Qed.

Lemma strftime_unused_with_user_tz_witness :
  to_user_tz (Kwargs None None None (Some true)) = true ∧
  call 2 sample_runtime (Kwargs None None None (Some true)) ∅
    (VList [VDate (Date 2020 1 2)]) []
  = call 2 (Runtime (λ _ _, EmptyString) (λ _ _, EmptyString) (λ d, d)
              (λ _ fmt, fmt) (λ _ fmt, fmt) elements)
      (Kwargs None None None (Some true)) ∅
      (VList [VDate (Date 2020 1 2)]) [].
Proof.
  split; [reflexivity|].
  apply (strftime_unused_with_user_tz sample_runtime
           (Runtime (λ _ _, EmptyString) (λ _ _, EmptyString) (λ d, d)
              (λ _ fmt, fmt) (λ _ fmt, fmt) elements)
           (Kwargs None None None (Some true)) 2 ∅
           (VList [VDate (Date 2020 1 2)]) []).
  - reflexivity.
  - repeat split.
Defined.

Lemma is_valid_greedy kw kw' (keys : store) k :
  is_greedy kw = is_greedy kw' → _is_valid kw keys k = _is_valid kw' keys k.
Proof. unfold _is_valid. by intros ->. Qed.

Lemma serialize_keyed_loop_settings kw kw' rec rec' items : ∀ keys res,
  is_greedy kw = is_greedy kw' →
  (∀ keys v sch, rec keys v sch = rec' keys v sch) →
  serialize_keyed_loop kw rec items keys res
  = serialize_keyed_loop kw' rec' items keys res.
Proof.
  intros keys res Hg Hrec. rewrite (serialize_keyed_loop_ext kw rec rec' Hrec).
  revert keys res. induction items as [|[k v] items IH]; intros keys res; [done|].
  simpl. rewrite (is_valid_greedy kw kw' keys k Hg).
  destruct (_is_valid kw' keys k); [|done].
  destruct (_fork rec' keys k v) as [[keys1 [e|j]]|]; auto.
Qed.

(** X19. A serializer is what its four settings make it: two sets of
    keyword arguments that [is_greedy], [to_user_tz], [datetime_format] and
    [date_format] read alike give the same answer on every value.  So a
    format passed as the empty string, a format not passed and the
    default format passed in full are the same, and so are [is_greedy]
    not passed and passed as true. *)
Theorem settings_decide_the_serializer rt kw kw' n (keys : store)
    (v : value) (schema : list string) :
  same_settings kw kw' →
  call n rt kw keys v schema = call n rt kw' keys v schema.
Proof.
  intros (Hg & Htz & Hdt & Hd). revert keys v schema.
  induction n as [|n IH]; intros keys v schema; [done|].
  change (call_body rt kw (call n rt kw) keys v schema
          = call_body rt kw' (call n rt kw') keys v schema).
  unfold call_body, serialize_datetime, serialize_date, serialize_iter,
    serialize_model, serialize_dict.
  rewrite Htz, Hdt, Hd.
  destruct (as_simple (resolve v)); [done|].
  destruct (as_datetime (resolve v)); [done|].
  destruct (as_date (resolve v)); [done|].
  destruct (as_iterable (resolve v)); [by apply serialize_iter_loop_ext|].
  destruct (as_mixin (resolve v)) as [[s0 attrs]|];
    [by apply serialize_keyed_loop_settings|].
  destruct (as_dict (resolve v)); [by apply serialize_keyed_loop_settings|done].
Qed.

Lemma settings_decide_the_serializer_witness :
  same_settings (Kwargs (Some true) (Some "") (Some "%Y-%m-%d %H:%M") None)
    default_kwargs ∧
  call 2 sample_runtime
    (Kwargs (Some true) (Some "") (Some "%Y-%m-%d %H:%M") None) ∅
    (VList [VDate (Date 2020 1 2)]) []
  = call 2 sample_runtime default_kwargs ∅ (VList [VDate (Date 2020 1 2)]) [].
Proof.
  assert (same_settings
            (Kwargs (Some true) (Some "") (Some "%Y-%m-%d %H:%M") None)
            default_kwargs) as H by (repeat split).
  split; [exact H|].
  apply (settings_decide_the_serializer sample_runtime _ _ 2 ∅
           (VList [VDate (Date 2020 1 2)]) [] H).
Defined.
